(** * Veo Batch Studio: the client-side job queue

    A shallow embedding of the queue processor of the application
    component (the [App] component with [addJobs], [updateJobStatus],
    [handleRetry], [processQueue] and [startJob]), of the remote adapter
    in [services/geminiService.ts] and of the retry gate of
    [components/JobRow.tsx].

    Modelling conventions.
    - React state ([jobs], [queueStarts]) is a record that every handler
      transforms; a handler's state updates are applied before the next
      handler runs, so the snapshot a tick reads through [jobsRef] and
      [queueStartsRef] is the current state.
    - [Date.now()] and [crypto.randomUUID()] are inputs of the handlers.
    - JavaScript numbers that hold millisecond timestamps and counts are
      integers ([Z]); optional properties are [option].
    - An [async] function is a function of the answers that the remote
      service gives; it returns [None] while its promise is pending. *)

From Stdlib Require Import ZArith Lia.
From stdpp Require Import base strings numbers option list.

Local Open Scope string_scope.
Local Open Scope list_scope.

(** ** types.ts *)

Inductive JobStatus := PENDING | PROCESSING | COMPLETED | FAILED.
Inductive InputType := TEXT | IMAGE.
Inductive ModelType := VEO_FAST | VEO_HQ.
Inductive AspectRatio := RATIO_16_9 | RATIO_9_16.
Inductive Resolution := RES_720P | RES_1080P.

#[global] Instance JobStatus_eq_dec : EqDecision JobStatus.
Proof. solve_decision. Defined.
#[global] Instance InputType_eq_dec : EqDecision InputType.
Proof. solve_decision. Defined.

Record JobConfig := {
  prompt : string;
  inputType : InputType;
  model : ModelType;
  aspectRatio : AspectRatio;
  resolution : Resolution;
  imageBase64 : option string;
  imageMimeType : option string
}.

Record Job := {
  id : string;
  config : JobConfig;
  status : JobStatus;
  videoUri : option string;
  downloadUrl : option string;
  error : option string;
  createdAt : Z;
  startedAt : option Z;
  completedAt : option Z
}.

(** [Partial<Job>]: every property may be absent; an optional property
    that is present may still hold [undefined]. *)
Record PartialJob := {
  p_id : option string;
  p_config : option JobConfig;
  p_status : option JobStatus;
  p_videoUri : option (option string);
  p_downloadUrl : option (option string);
  p_error : option (option string);
  p_createdAt : option Z;
  p_startedAt : option (option Z);
  p_completedAt : option (option Z)
}.

Definition noUpdates : PartialJob :=
  {| p_id := None; p_config := None; p_status := None; p_videoUri := None;
     p_downloadUrl := None; p_error := None; p_createdAt := None;
     p_startedAt := None; p_completedAt := None |}.

(** ** JavaScript helpers *)

(** Truthiness of a possibly undefined string. *)
Definition truthy (s : option string) : bool :=
  match s with
  | Some m => negb (String.eqb m EmptyString)
  | None => false
  end.

(** [s || d] on a possibly undefined string. *)
Definition orElse (s : option string) (d : string) : string :=
  match s with
  | Some m => if String.eqb m EmptyString then d else m
  | None => d
  end.

(** The length of [Array.from({ length: count })]: [ToLength] clamps a
    non-positive count to 0, and creating an array of more than
    [2^32 - 1] elements throws a [RangeError] ([None]). *)
Definition arrayFromLength (count : Z) : option nat :=
  if (count <=? 0)%Z then Some 0
  else if (count <=? 4294967295)%Z then Some (Z.to_nat count)
  else None.

(** ** Constants for queue management *)

Definition MAX_CONCURRENT_JOBS : nat := 4.
Definition RATE_LIMIT_WINDOW_MS : Z := 60000.
Definition MAX_STARTS_PER_WINDOW : nat := 4.

(** ** The React state of [App] *)

Record App := {
  jobs : list Job;
  queueStarts : list Z
}.

Definition setJobs (f : list Job → list Job) (a : App) : App :=
  {| jobs := f (jobs a); queueStarts := queueStarts a |}.

Definition setQueueStarts (f : list Z → list Z) (a : App) : App :=
  {| jobs := jobs a; queueStarts := f (queueStarts a) |}.

(** ** Job management *)

(** [{ ...job, status, ...updates }] *)
Definition spread (job : Job) (st : JobStatus) (u : PartialJob) : Job :=
  {| id := default (id job) (p_id u);
     config := default (config job) (p_config u);
     status := default st (p_status u);
     videoUri := default (videoUri job) (p_videoUri u);
     downloadUrl := default (downloadUrl job) (p_downloadUrl u);
     error := default (error job) (p_error u);
     createdAt := default (createdAt job) (p_createdAt u);
     startedAt := default (startedAt job) (p_startedAt u);
     completedAt := default (completedAt job) (p_completedAt u) |}.

Definition newJob (uuid : string) (cfg : JobConfig) (now : Z) : Job :=
  {| id := uuid; config := cfg; status := PENDING;
     videoUri := None; downloadUrl := None; error := None;
     createdAt := now; startedAt := None; completedAt := None |}.

(** [addJobs config count]; [uuid k] and [clk k] are the values of
    [crypto.randomUUID()] and [Date.now()] in the [k]-th callback of
    [map].  A [RangeError] of [Array.from] leaves the state as it is. *)
Definition addJobs (uuid : nat → string) (clk : nat → Z)
    (cfg : JobConfig) (count : Z) (a : App) : App :=
  match arrayFromLength count with
  | Some n =>
      let newJobs := (λ k, newJob (uuid k) cfg (clk k)) <$> seq 0 n in
      setJobs (λ prev, prev ++ newJobs) a
  | None => a
  end.

Definition updateJob (i : string) (st : JobStatus) (u : PartialJob)
    (job : Job) : Job :=
  if decide (id job = i) then spread job st u else job.

Definition updateJobStatus (i : string) (st : JobStatus) (u : PartialJob)
    (a : App) : App :=
  setJobs (fmap (updateJob i st u)) a.

Definition retryUpdates : PartialJob :=
  {| p_id := None; p_config := None; p_status := None; p_videoUri := None;
     p_downloadUrl := None; p_error := Some None; p_createdAt := None;
     p_startedAt := None; p_completedAt := None |}.

Definition handleRetry (i : string) (a : App) : App :=
  updateJobStatus i PENDING retryUpdates a.

(** [JobRow]: the Retry button is rendered for a failed job only, and a
    click on it calls [onRetry(job.id)]. *)
Definition retryOffered (job : Job) : bool :=
  bool_decide (status job = FAILED).

(** ** services/geminiService.ts *)

(** A thrown value, seen through its [message] property. *)
Record JsError := { message : option string }.

Definition Error (m : string) : JsError := {| message := Some m |}.

(** The settled state of a promise. *)
Inductive Settled (A : Type) :=
  | Resolved (a : A)
  | Rejected (e : JsError).
Arguments Resolved {A} a.
Arguments Rejected {A} e.

(** The argument of [ai.models.generateVideos]. *)
Record VideoRequest := {
  rq_model : ModelType;
  rq_prompt : string;
  rq_image : option (string * string);
  rq_numberOfVideos : nat;
  rq_resolution : Resolution;
  rq_aspectRatio : AspectRatio
}.

(** A long-running operation of the remote service: [done], [error]
    (an object with an optional [message]) and
    [response?.generatedVideos?.[0]?.video?.uri]. *)
Record Operation := {
  done : bool;
  op_error : option (option string);
  op_uri : option string
}.

Record FetchResponse := {
  ok : bool;
  blob : Settled string
}.

(** What the environment answers to one execution of a job:
    [process.env.API_KEY], the answer to the submission, the answers to
    the successive polls and the answer to the download. *)
Record Remote := {
  API_KEY : option string;
  generateVideos : VideoRequest → Settled Operation;
  getVideosOperation : list (Settled Operation);
  fetch : string → Settled FetchResponse
}.

Definition buildRequest (cfg : JobConfig) : VideoRequest :=
  if bool_decide (inputType cfg = IMAGE) && truthy (imageBase64 cfg) then
    {| rq_model := model cfg; rq_prompt := prompt cfg;
       rq_image := Some (default EmptyString (imageBase64 cfg),
                         orElse (imageMimeType cfg) "image/png");
       rq_numberOfVideos := 1;
       rq_resolution := resolution cfg; rq_aspectRatio := aspectRatio cfg |}
  else
    {| rq_model := model cfg; rq_prompt := prompt cfg;
       rq_image := None;
       rq_numberOfVideos := 1;
       rq_resolution := resolution cfg; rq_aspectRatio := aspectRatio cfg |}.

(** [while (!operation.done) { await delay(5000); operation = await ... }]:
    [None] when the answers run out before an operation is done. *)
Fixpoint polling (answers : list (Settled Operation)) (operation : Operation)
    : option (Settled Operation) :=
  if done operation then Some (Resolved operation)
  else match answers with
       | [] => None
       | Rejected e :: _ => Some (Rejected e)
       | Resolved operation' :: rest => polling rest operation'
       end.

(** The statements after the polling loop, inside the [try]. *)
Definition extractResult (operation : Operation) : Settled string :=
  match op_error operation with
  | Some m => Rejected (Error (orElse m "Unknown generation error"))
  | None =>
      if truthy (op_uri operation)
      then Resolved (default EmptyString (op_uri operation))
      else Rejected (Error "No video URI returned in response")
  end.

(** [catch (error) { throw new Error(error.message || ...) }] *)
Definition rethrow (r : Settled string) : Settled string :=
  match r with
  | Resolved uri => Resolved uri
  | Rejected e =>
      Rejected (Error (orElse (message e) "Failed to generate video"))
  end.

Definition generateVideoJob (env : Remote) (cfg : JobConfig)
    : option (Settled string) :=
  if negb (truthy (API_KEY env)) then
    Some (Rejected (Error "API Key not found. Please select a project."))
  else
    match generateVideos env (buildRequest cfg) with
    | Rejected e => Some (rethrow (Rejected e))
    | Resolved operation =>
        match polling (getVideosOperation env) operation with
        | None => None
        | Some (Rejected e) => Some (rethrow (Rejected e))
        | Some (Resolved operation') => Some (rethrow (extractResult operation'))
        end
    end.

Definition fetchVideoBlob (env : Remote) (uri : string) : Settled string :=
  let urlWithKey :=
    String.append uri (String.append "&key=" (default "undefined" (API_KEY env))) in
  match fetch env urlWithKey with
  | Rejected e => Rejected e
  | Resolved response =>
      if negb (ok response)
      then Rejected (Error "Failed to download video file")
      else blob response
  end.

(** ** Queue processor *)

(** An execution launched by [startJob]: the part after the first
    [await], which runs on the [config] read through [jobsRef]. *)
Record Launch := {
  l_id : string;
  l_config : JobConfig
}.

Definition startedUpdates (now : Z) : PartialJob :=
  {| p_id := None; p_config := None; p_status := None; p_videoUri := None;
     p_downloadUrl := None; p_error := None; p_createdAt := None;
     p_startedAt := Some (Some now); p_completedAt := None |}.

Definition completedUpdates (now : Z) (uri blobUrl : string) : PartialJob :=
  {| p_id := None; p_config := None; p_status := None;
     p_videoUri := Some (Some uri); p_downloadUrl := Some (Some blobUrl);
     p_error := None; p_createdAt := None;
     p_startedAt := None; p_completedAt := Some (Some now) |}.

Definition failedUpdates (m : string) : PartialJob :=
  {| p_id := None; p_config := None; p_status := None; p_videoUri := None;
     p_downloadUrl := None; p_error := Some (Some m); p_createdAt := None;
     p_startedAt := None; p_completedAt := None |}.

(** The synchronous part of [startJob]: [t1] and [t2] are the two
    readings of [Date.now()]. *)
Definition startJob (i : string) (t1 t2 : Z) (a : App) : App * option Launch :=
  let a1 := updateJobStatus i PROCESSING (startedUpdates t1) a in
  let a2 := setQueueStarts (λ prev, prev ++ [t2]) a1 in
  match list_find (λ j, id j = i) (jobs a) with
  | None => (a2, None)
  | Some (_, job) => (a2, Some {| l_id := i; l_config := config job |})
  end.

(** The outcome of the [try] block of [startJob]: the status and the
    updates of its last [updateJobStatus], [None] while it is pending. *)
Definition execution (env : Remote) (cfg : JobConfig) (now : Z)
    : option (JobStatus * PartialJob) :=
  match generateVideoJob env cfg with
  | None => None
  | Some (Rejected err) =>
      Some (FAILED, failedUpdates (orElse (message err) "Unknown error occurred"))
  | Some (Resolved uri) =>
      match fetchVideoBlob env uri with
      | Rejected err =>
          Some (FAILED, failedUpdates (orElse (message err) "Unknown error occurred"))
      | Resolved blobUrl => Some (COMPLETED, completedUpdates now uri blobUrl)
      end
  end.

Definition finishJob (i : string) (outcome : JobStatus * PartialJob) (a : App)
    : App :=
  updateJobStatus i (fst outcome) (snd outcome) a.

Definition validStart (now : Z) (t : Z) : Prop :=
  (now - t < RATE_LIMIT_WINDOW_MS)%Z.

#[global] Instance validStart_dec now t : Decision (validStart now t).
Proof. unfold validStart. apply _. Defined.

Definition isProcessing (j : Job) : Prop := status j = PROCESSING.
Definition isPending (j : Job) : Prop := status j = PENDING.

#[global] Instance isProcessing_dec j : Decision (isProcessing j).
Proof. unfold isProcessing. apply _. Defined.
#[global] Instance isPending_dec j : Decision (isPending j).
Proof. unfold isPending. apply _. Defined.

(** One tick; [now] is the reading of [Date.now()] in [processQueue]. *)
Definition processQueue (now t1 t2 : Z) (a : App) : App * option Launch :=
  let currentJobs := jobs a in
  let currentStarts := queueStarts a in
  let validStarts := filter (validStart now) currentStarts in
  if negb (length validStarts =? length currentStarts)%nat then
    (setQueueStarts (λ _, validStarts) a, None)
  else
    let processingJobs := filter isProcessing currentJobs in
    if (MAX_CONCURRENT_JOBS <=? length processingJobs)%nat then (a, None)
    else if (MAX_STARTS_PER_WINDOW <=? length validStarts)%nat then (a, None)
    else
      match list_find isPending currentJobs with
      | None => (a, None)
      | Some (_, candidate) => startJob (id candidate) t1 t2 a
      end.

(** ** The running application

    Besides the React state, the system holds the executions that
    [startJob] has launched and that have not settled yet.  Two further
    components are only observed, never read by the code: [clock], the
    latest reading of [Date.now()] by the queue processor, and
    [admissions], every timestamp that [startJob] has ever recorded. *)

Record System := {
  app : App;
  running : list Launch;
  clock : Z;
  admissions : list Z
}.

Definition init (t0 : Z) : System :=
  {| app := {| jobs := []; queueStarts := [] |};
     running := []; clock := t0; admissions := [] |}.

Inductive Event :=
  | AddJobs (uuid : nat → string) (clk : nat → Z) (cfg : JobConfig) (count : Z)
  | RetryClick (row : nat)
  | Tick (now t1 t2 : Z)
  | Settle (i : string) (env : Remote) (now : Z).

(** The identifiers that one call of [addJobs] draws. *)
Definition drawn (uuid : nat → string) (count : Z) : list string :=
  match arrayFromLength count with
  | Some n => uuid <$> seq 0 n
  | None => []
  end.

Definition withApp (a : App) (s : System) : System :=
  {| app := a; running := running s; clock := clock s;
     admissions := admissions s |}.

(** One event of the application.  The guards are the assumptions on
    the environment: [crypto.randomUUID()] never repeats an identifier,
    the readings of [Date.now()] by the queue processor do not decrease,
    the Retry button exists only where [JobRow] renders it, and only a
    launched execution settles.  [startJob] always finds the candidate
    that [processQueue] hands to it, so a tick records a timestamp
    exactly when it launches an execution; a job has at most one
    execution in flight, so a settlement removes one launch. *)
Definition dispatch (ev : Event) (s : System) : option System :=
  match ev with
  | AddJobs uuid clk cfg count =>
      if bool_decide (NoDup ((id <$> jobs (app s)) ++ drawn uuid count))
      then Some (withApp (addJobs uuid clk cfg count (app s)) s)
      else None
  | RetryClick row =>
      match jobs (app s) !! row with
      | Some job =>
          if retryOffered job
          then Some (withApp (handleRetry (id job) (app s)) s)
          else None
      | None => None
      end
  | Tick now t1 t2 =>
      if bool_decide (clock s ≤ now ∧ now ≤ t1 ∧ t1 ≤ t2)%Z then
        match processQueue now t1 t2 (app s) with
        | (a, Some l) =>
            Some {| app := a; running := running s ++ [l]; clock := t2;
                    admissions := admissions s ++ [t2] |}
        | (a, None) =>
            Some {| app := a; running := running s; clock := now;
                    admissions := admissions s |}
        end
      else None
  | Settle i env now =>
      match list_find (λ l, l_id l = i) (running s) with
      | Some (_, l) =>
          match execution env (l_config l) now with
          | Some outcome =>
              Some {| app := finishJob i outcome (app s);
                      running := filter (λ l, l_id l ≠ i) (running s);
                      clock := clock s; admissions := admissions s |}
          | None => None
          end
      | None => None
      end
  end.

Inductive reachable : System → Prop :=
  | reachable_init t0 : reachable (init t0)
  | reachable_step s ev s' :
      reachable s → dispatch ev s = Some s' → reachable s'.

Fixpoint run (evs : list Event) (s : System) : option System :=
  match evs with
  | [] => Some s
  | ev :: rest =>
      match dispatch ev s with
      | Some s' => run rest s'
      | None => None
      end
  end.

(** * Specification *)

Local Close Scope string_scope.

(** ** Observations *)

Definition processingCount (a : App) : nat :=
  length (filter isProcessing (jobs a)).

(** The trailing window at the moment [T]: the timestamps [t] with
    [T - 60000 < t <= T]. *)
Definition inWindow (T : Z) (t : Z) : Prop :=
  (t ≤ T ∧ T - t < RATE_LIMIT_WINDOW_MS)%Z.

#[global] Instance inWindow_dec T t : Decision (inWindow T t).
Proof. unfold inWindow. apply _. Defined.

(** The jobs that are [PENDING] before and [PROCESSING] after. *)
Definition admittedBetween (before after : list Job) : list (Job * Job) :=
  filter (λ p, status (fst p) = PENDING ∧ status (snd p) = PROCESSING)
         (zip before after).

(** The invariant of the data model on one job. *)
Definition consistent (job : Job) : Prop :=
  match status job with
  | PENDING | PROCESSING =>
      error job = None ∧ videoUri job = None ∧ downloadUrl job = None
  | COMPLETED =>
      error job = None ∧ is_Some (videoUri job) ∧ is_Some (downloadUrl job)
  | FAILED =>
      is_Some (error job) ∧ videoUri job = None ∧ downloadUrl job = None
  end.

(** The value that one execution throws first, before a handler wraps
    it: the missing key, a rejected submission or poll, the error object
    of the operation, the missing locator or a failed download.  [None]
    when nothing is thrown or the polling is still pending. *)
Definition thrown (env : Remote) (cfg : JobConfig) : option JsError :=
  if negb (truthy (API_KEY env)) then
    Some (Error "API Key not found. Please select a project.")
  else
    match generateVideos env (buildRequest cfg) with
    | Rejected e => Some e
    | Resolved operation =>
        match polling (getVideosOperation env) operation with
        | None => None
        | Some (Rejected e) => Some e
        | Some (Resolved operation') =>
            match op_error operation' with
            | Some m => Some {| message := m |}
            | None =>
                if truthy (op_uri operation') then
                  match fetchVideoBlob env (default EmptyString (op_uri operation')) with
                  | Rejected e => Some e
                  | Resolved _ => None
                  end
                else Some (Error "No video URI returned in response")
            end
        end
    end.

(** The fallback messages of the three handlers. *)
Definition genericMessages : list string :=
  ["Unknown generation error"; "Failed to generate video";
   "Unknown error occurred"]%string.

(** ** Relations and invariants *)

(** Updates that leave [id] and [status] to [updateJobStatus]. *)
Definition plain (u : PartialJob) : Prop :=
  p_id u = None ∧ p_status u = None ∧ p_config u = None.

(** Every settled execution ends in one of the two terminal updates. *)
Inductive Terminal (now : Z) : JobStatus * PartialJob → Prop :=
  | terminal_failed m :
      m ≠ EmptyString → Terminal now (FAILED, failedUpdates m)
  | terminal_completed uri blobUrl :
      Terminal now (COMPLETED, completedUpdates now uri blobUrl).

(** The three ways in which [processQueue] ends: it prunes and stops, it
    stops at a gate or for want of a pending job, or it calls [startJob]
    on the first pending job. *)
Inductive TickOutcome (now t1 t2 : Z) (a : App) : App * option Launch → Prop :=
  | tick_prune :
      length (filter (validStart now) (queueStarts a)) < length (queueStarts a) →
      TickOutcome now t1 t2 a
        (setQueueStarts (λ _, filter (validStart now) (queueStarts a)) a, None)
  | tick_refuse :
      filter (validStart now) (queueStarts a) = queueStarts a →
      MAX_CONCURRENT_JOBS ≤ processingCount a
      ∨ MAX_STARTS_PER_WINDOW ≤ length (queueStarts a)
      ∨ list_find isPending (jobs a) = None →
      TickOutcome now t1 t2 a (a, None)
  | tick_admit k candidate k' job :
      filter (validStart now) (queueStarts a) = queueStarts a →
      processingCount a < MAX_CONCURRENT_JOBS →
      length (queueStarts a) < MAX_STARTS_PER_WINDOW →
      list_find isPending (jobs a) = Some (k, candidate) →
      list_find (λ j, id j = id candidate) (jobs a) = Some (k', job) →
      TickOutcome now t1 t2 a
        ({| jobs := updateJob (id candidate) PROCESSING (startedUpdates t1)
                      <$> jobs a;
            queueStarts := queueStarts a ++ [t2] |},
         Some {| l_id := id candidate; l_config := config job |}).

(** What one event does to the system, as a relation. *)
Inductive Step (s : System) : System → Prop :=
  | step_add uuid clk cfg count :
      NoDup ((id <$> jobs (app s)) ++ drawn uuid count) →
      Step s (withApp (addJobs uuid clk cfg count (app s)) s)
  | step_retry row job :
      jobs (app s) !! row = Some job →
      status job = FAILED →
      Step s (withApp (handleRetry (id job) (app s)) s)
  | step_tick_quiet now t1 t2 a :
      (clock s ≤ now)%Z →
      TickOutcome now t1 t2 (app s) (a, None) →
      Step s {| app := a; running := running s; clock := now;
                admissions := admissions s |}
  | step_tick_admit now t1 t2 a l :
      (clock s ≤ now ∧ now ≤ t1 ∧ t1 ≤ t2)%Z →
      TickOutcome now t1 t2 (app s) (a, Some l) →
      Step s {| app := a; running := running s ++ [l]; clock := t2;
                admissions := admissions s ++ [t2] |}
  | step_settle i now l outcome :
      l ∈ running s →
      l_id l = i →
      Terminal now outcome →
      Step s {| app := finishJob i outcome (app s);
                running := filter (λ l, l_id l ≠ i) (running s);
                clock := clock s; admissions := admissions s |}.

(** Identifiers are distinct, a job has at most one execution in flight
    and is processing while it has one, the concurrency cap holds and
    every job is consistent. *)
Record StoreInv (s : System) : Prop := {
  inv_ids : NoDup (id <$> jobs (app s));
  inv_launches : NoDup (l_id <$> running s);
  inv_running : ∀ l, l ∈ running s →
    ∃ job, job ∈ jobs (app s) ∧ id job = l_id l ∧ status job = PROCESSING;
  inv_concurrent : processingCount (app s) ≤ MAX_CONCURRENT_JOBS;
  inv_consistent : Forall consistent (jobs (app s))
}.

(** The rate-window set has at most [MAX_STARTS_PER_WINDOW] entries, no
    recorded admission lies in the future, the set holds every recorded
    admission that a tick from now on can still find unexpired, and no
    trailing window holds more than [MAX_STARTS_PER_WINDOW] admissions. *)
Record RateInv (s : System) : Prop := {
  inv_window_size : length (queueStarts (app s)) ≤ MAX_STARTS_PER_WINDOW;
  inv_past : ∀ t, t ∈ admissions s → (t ≤ clock s)%Z;
  inv_recent : ∀ T, (clock s ≤ T)%Z →
    filter (validStart T) (admissions s)
    = filter (validStart T) (queueStarts (app s));
  inv_windows : ∀ T,
    length (filter (inWindow T) (admissions s)) ≤ MAX_STARTS_PER_WINDOW
}.

(** ** Sample executions *)

Definition sampleConfig : JobConfig :=
  {| prompt := "a red kite"%string; inputType := TEXT; model := VEO_FAST;
     aspectRatio := RATIO_16_9; resolution := RES_720P;
     imageBase64 := None; imageMimeType := None |}.

Definition sampleUuid (k : nat) : string :=
  String (Ascii.ascii_of_nat (65 + k)) EmptyString.

(** An operation that is still running. *)
Definition sampleStep : Operation :=
  {| done := false; op_error := None; op_uri := None |}.

(** A remote service whose operation reports an error on the second
    poll. *)
Definition failing (m : option string) : Remote :=
  {| API_KEY := Some "key"%string;
     generateVideos := λ _, Resolved sampleStep;
     getVideosOperation :=
       [Resolved sampleStep;
        Resolved {| done := true; op_error := Some m; op_uri := None |}];
     fetch := λ _, Rejected {| message := None |} |}.

(** A remote service that produces a video. *)
Definition succeeding : Remote :=
  {| API_KEY := Some "key"%string;
     generateVideos := λ _,
       Resolved {| done := true; op_error := None;
                   op_uri := Some "https://v/1?alt=media"%string |};
     getVideosOperation := [];
     fetch := λ _,
       Resolved {| ok := true; blob := Resolved "blob:1"%string |} |}.

(** Five jobs, four admitted one second apart. *)
Definition busyEvents : list Event :=
  [AddJobs sampleUuid (λ _, 5%Z) sampleConfig 5;
   Tick 10 10 11; Tick 1010 1010 1011; Tick 2010 2010 2011;
   Tick 3010 3010 3011; Tick 4010 4010 4011].

Definition busy : System := default (init 0) (run busyEvents (init 0)).

(** Afterwards the first job fails and the second completes. *)
Definition settledEvents : list Event :=
  busyEvents ++
  [Settle "A"%string (failing (Some "quota exceeded"%string)) 5000;
   Settle "B"%string succeeding 6000].

Definition settled : System := default (init 0) (run settledEvents (init 0)).

(** What follows: a retry, new jobs, ticks, the remaining settlements. *)
Definition laterEvents : list Event :=
  [RetryClick 0; AddJobs (λ k, sampleUuid (5 + k)) (λ _, 7000%Z) sampleConfig 2;
   Tick 7010 7010 7011; Settle "C"%string succeeding 8000;
   Tick 62000 62000 62001; Tick 62005 62005 62006;
   Settle "A"%string succeeding 64000].

Definition later : System := default settled (run laterEvents settled).

(** The state of [settled] once the retried job is pending again. *)
Definition retried : App := handleRetry "A"%string (app settled).

(** The same state on a tick that finds every timestamp expired. *)
Definition drained : App := fst (processQueue 70000 70000 70001 retried).

(** * The rest of the application *)

(** ** Download logic and statistics of [App] *)

(** The anchor element that [handleDownload] creates and clicks. *)
Record Anchor := {
  href : string;
  download : string
}.

(** [handleDownload job]: [None] when nothing is clicked. *)
Definition handleDownload (job : Job) : option Anchor :=
  if truthy (downloadUrl job) then
    Some {| href := default EmptyString (downloadUrl job);
            download := String.append "veo-gen-"
                          (String.append (id job) ".mp4") |}
  else None.

Definition downloadable (job : Job) : Prop :=
  status job = COMPLETED ∧ truthy (downloadUrl job) = true.

#[global] Instance downloadable_dec job : Decision (downloadable job).
Proof. unfold downloadable. apply _. Defined.

(** [handleDownloadAll]: the timers it sets, each with its delay in
    milliseconds and the job that its callback hands to
    [handleDownload]. *)
Definition handleDownloadAll (a : App) : list (Z * Job) :=
  let completed := filter downloadable (jobs a) in
  imap (λ index job, ((Z.of_nat index * 500)%Z, job)) completed.

Definition isCompleted (j : Job) : Prop := status j = COMPLETED.

#[global] Instance isCompleted_dec j : Decision (isCompleted j).
Proof. unfold isCompleted. apply _. Defined.

Definition pendingCount (a : App) : nat :=
  length (filter isPending (jobs a)).

Definition completedCount (a : App) : nat :=
  length (filter isCompleted (jobs a)).

(** ** components/JobRow.tsx *)

(** The result cell of a row: the video player, the spinner or the
    placeholder. *)
Inductive ResultCell :=
  | Player (src : string)
  | Spinner
  | Waiting.

Definition resultCell (job : Job) : ResultCell :=
  if bool_decide (status job = COMPLETED) && truthy (downloadUrl job)
  then Player (default EmptyString (downloadUrl job))
  else if bool_decide (status job = PROCESSING) then Spinner
  else Waiting.

(** The error line under the status badge: [job.error && ...]. *)
Definition errorLine (job : Job) : option string :=
  if truthy (error job) then error job else None.

(** The Download button. *)
Definition downloadOffered (job : Job) : bool :=
  bool_decide (status job = COMPLETED).

(** ** components/JobForm.tsx *)

Record FormState := {
  f_prompt : string;
  f_inputType : InputType;
  f_model : ModelType;
  f_aspectRatio : AspectRatio;
  f_resolution : Resolution;
  f_count : Z;
  f_imageBase64 : option string;
  f_imageName : string
}.

(** The state of a freshly mounted form. *)
Definition initialForm : FormState :=
  {| f_prompt := EmptyString; f_inputType := TEXT; f_model := VEO_FAST;
     f_aspectRatio := RATIO_16_9; f_resolution := RES_720P; f_count := 1;
     f_imageBase64 := None; f_imageName := EmptyString |}.

(** [s.split(sep)] for a separator of one character. *)
Fixpoint split (sep : Ascii.ascii) (s : string) : list string :=
  match s with
  | EmptyString => [EmptyString]
  | String c rest =>
      if Ascii.eqb c sep then EmptyString :: split sep rest
      else match split sep rest with
           | [] => [String c EmptyString]
           | piece :: pieces => String c piece :: pieces
           end
  end.

(** The character [','] (code 44). *)
Definition comma : Ascii.ascii := Ascii.ascii_of_nat 44.

(** Whether a character occurs in a string. *)
Fixpoint occurs (c : Ascii.ascii) (s : string) : bool :=
  match s with
  | EmptyString => false
  | String c' rest => Ascii.eqb c' c || occurs c rest
  end.

(** [base64String.split(',')[1]] *)
Definition base64Data (base64String : string) : option string :=
  split comma base64String !! 1.

(** [handleFileChange] with the chosen file, if any, as its name and the
    data URL that the reader produces for it. *)
Definition handleFileChange (file : option (string * string)) (f : FormState)
    : FormState :=
  match file with
  | Some (name, base64String) =>
      {| f_prompt := f_prompt f; f_inputType := f_inputType f;
         f_model := f_model f; f_aspectRatio := f_aspectRatio f;
         f_resolution := f_resolution f; f_count := f_count f;
         f_imageBase64 := base64Data base64String; f_imageName := name |}
  | None => f
  end.

Section Submit.
(** [String.prototype.trim], which removes the white space and the line
    terminators of Unicode at both ends. *)
Variable trim : string → string.

(** [handleSubmit]: the arguments of its call of [onAddJob], if any. *)
Definition handleSubmit (f : FormState) : option (JobConfig * Z) :=
  if negb (truthy (Some (trim (f_prompt f)))) then None
  else
    Some ({| prompt := f_prompt f; inputType := f_inputType f;
             model := f_model f; aspectRatio := f_aspectRatio f;
             resolution := f_resolution f;
             imageBase64 := f_imageBase64 f;
             imageMimeType := Some "image/png"%string |},
          f_count f).

(** A submission of the form, with [addJobs] as its [onAddJob]. *)
Definition submit (uuid : nat → string) (clk : nat → Z) (f : FormState)
    (a : App) : App :=
  match handleSubmit f with
  | Some (cfg, count) => addJobs uuid clk cfg count a
  | None => a
  end.
End Submit.

(** ** Further invariants *)

(** Executions in flight and processing jobs correspond, and an
    execution runs on the configuration of its job. *)
Record FlightInv (s : System) : Prop := {
  flight_job : ∀ l, l ∈ running s →
    ∃ job, job ∈ jobs (app s) ∧ id job = l_id l
           ∧ config job = l_config l ∧ status job = PROCESSING;
  flight_launch : ∀ job, job ∈ jobs (app s) → status job = PROCESSING →
    ∃ l, l ∈ running s ∧ l_id l = id job
}.

(** What the lifecycle leaves on a job besides error and result. *)
Definition stamped (job : Job) : Prop :=
  (status job ≠ PENDING → is_Some (startedAt job))
  ∧ (is_Some (completedAt job) ↔ status job = COMPLETED)
  ∧ (status job = FAILED → truthy (error job) = true).

(** A form on which the image type is chosen and a file is read. *)
Definition imageForm : FormState :=
  handleFileChange
    (Some ("kite.jpg"%string, "data:image/jpeg;base64,QUJD"%string))
    {| f_prompt := "a red kite"%string; f_inputType := IMAGE;
       f_model := VEO_HQ; f_aspectRatio := RATIO_9_16;
       f_resolution := RES_1080P; f_count := 3;
       f_imageBase64 := None; f_imageName := EmptyString |}.

(** * Properties *)

(** ** Lists *)

Section Lists.
Context {A : Type} (P : A → Prop) `{!∀ x, Decision (P x)}.

Lemma filter_all l : length (filter P l) = length l → filter P l = l.
Proof.
  induction l as [|x l IH]; [done|].
  rewrite filter_cons. destruct (decide (P x)); simpl; intros Hlen.
  - f_equal. apply IH. lia.
  - pose proof (length_filter P l). lia.
Qed.

Lemma filter_some_removed l :
  length (filter P l) ≠ length l → length (filter P l) < length l.
Proof. pose proof (length_filter P l). lia. Qed.

End Lists.

(** ** The job store *)

Lemma plain_retry : plain retryUpdates.
Proof. done. Qed.
Lemma plain_started t : plain (startedUpdates t).
Proof. done. Qed.
Lemma plain_completed t uri b : plain (completedUpdates t uri b).
Proof. done. Qed.
Lemma plain_failed m : plain (failedUpdates m).
Proof. done. Qed.

Create HintDb queue.

#[local] Hint Resolve plain_retry plain_started plain_completed plain_failed
  : queue.

Section Store.
Variables (i : string) (st : JobStatus) (u : PartialJob).
Hypothesis Hplain : plain u.

Lemma updateJob_id job : id (updateJob i st u job) = id job.
Proof.
  unfold updateJob. destruct Hplain as (Hid & _).
  case_decide; [|done]. simpl. by rewrite Hid.
Qed.

Lemma updateJob_config job : config (updateJob i st u job) = config job.
Proof.
  unfold updateJob. destruct Hplain as (_ & _ & Hc).
  case_decide; [|done]. simpl. by rewrite Hc.
Qed.

Lemma updateJob_status job :
  status (updateJob i st u job) = if decide (id job = i) then st else status job.
Proof.
  unfold updateJob. destruct Hplain as (_ & Hst & _).
  case_decide; [|done]. simpl. by rewrite Hst.
Qed.

Lemma updateJob_other job : id job ≠ i → updateJob i st u job = job.
Proof. unfold updateJob. by case_decide. Qed.

Lemma updateJob_ids (l : list Job) : id <$> (updateJob i st u <$> l) = id <$> l.
Proof.
  rewrite <- list_fmap_compose. apply list_fmap_ext.
  intros ? job _. simpl. apply updateJob_id.
Qed.

Lemma updateJob_absent (l : list Job) : i ∉ id <$> l → updateJob i st u <$> l = l.
Proof.
  induction l as [|job l IH]; [done|].
  rewrite fmap_cons, not_elem_of_cons. intros [Hne Hl].
  rewrite fmap_cons, IH by done. f_equal. by apply updateJob_other.
Qed.

(** With distinct identifiers at most one job becomes processing. *)
Lemma updateJob_processing_le (l : list Job) :
  NoDup (id <$> l) →
  length (filter isProcessing (updateJob i st u <$> l))
  ≤ S (length (filter isProcessing l)).
Proof.
  induction l as [|job l IH]; [simpl; lia|].
  rewrite !fmap_cons, NoDup_cons. intros [Hnotin Hnd].
  destruct (decide (id job = i)) as [Heq|Hne].
  - rewrite Heq in Hnotin. rewrite (updateJob_absent l) by done.
    rewrite !filter_cons.
    repeat case_decide; simpl; lia.
  - rewrite updateJob_other by done.
    specialize (IH Hnd). rewrite !filter_cons.
    case_decide; simpl; lia.
Qed.

(** A status other than [PROCESSING] never adds a processing job. *)
Lemma updateJob_processing_mono (l : list Job) :
  st ≠ PROCESSING →
  length (filter isProcessing (updateJob i st u <$> l))
  ≤ length (filter isProcessing l).
Proof.
  intros Hst. induction l as [|job l IH]; [done|].
  rewrite !fmap_cons, !filter_cons.
  pose proof (updateJob_status job) as Hjob. unfold isProcessing at 1 3.
  repeat case_decide; simpl; try lia; congruence.
Qed.
End Store.

Lemma unique_id (l : list Job) (j1 j2 : Job) :
  NoDup (id <$> l) → j1 ∈ l → j2 ∈ l → id j1 = id j2 → j1 = j2.
Proof.
  intros Hnd [k1 H1]%list_elem_of_lookup [k2 H2]%list_elem_of_lookup Hid.
  assert (k1 = k2) as ->.
  { eapply NoDup_lookup; [exact Hnd| |].
    - rewrite list_lookup_fmap, H1. reflexivity.
    - rewrite list_lookup_fmap, H2. simpl. by rewrite Hid. }
  congruence.
Qed.

Lemma updateJob_elem (i : string) (st : JobStatus) (u : PartialJob)
    (l : list Job) (job : Job) :
  job ∈ l → id job ≠ i → job ∈ updateJob i st u <$> l.
Proof.
  intros Hin Hne. apply list_elem_of_fmap. exists job. split; [|done].
  unfold updateJob. by case_decide.
Qed.

Lemma updateJob_lookup (i : string) (st : JobStatus) (u : PartialJob)
    (l : list Job) (k : nat) (job : Job) :
  l !! k = Some job → id job ≠ i → (updateJob i st u <$> l) !! k = Some job.
Proof.
  intros Hk Hne. rewrite list_lookup_fmap, Hk. simpl.
  unfold updateJob. by case_decide.
Qed.

(** ** The remote adapter *)

Lemma orElse_nonempty s d : d ≠ EmptyString → orElse s d ≠ EmptyString.
Proof.
  intros Hd. unfold orElse. destruct s as [m|]; [|done].
  destruct (String.eqb_spec m EmptyString); done.
Qed.

Lemma orElse_message m d : m ≠ EmptyString → orElse (Some m) d = m.
Proof.
  intros Hm. unfold orElse. by destruct (String.eqb_spec m EmptyString).
Qed.

Lemma execution_terminal env cfg now outcome :
  execution env cfg now = Some outcome → Terminal now outcome.
Proof.
  unfold execution. intros H.
  destruct (generateVideoJob env cfg) as [[uri|err]|]; [| |done].
  - destruct (fetchVideoBlob env uri) as [blobUrl|err]; simplify_eq.
    + constructor.
    + constructor. by apply orElse_nonempty.
  - simplify_eq. constructor. by apply orElse_nonempty.
Qed.

(** ** One tick *)

Lemma processQueue_outcome now t1 t2 a :
  TickOutcome now t1 t2 a (processQueue now t1 t2 a).
Proof.
  unfold processQueue.
  destruct (Nat.eqb_spec (length (filter (validStart now) (queueStarts a)))
                         (length (queueStarts a))) as [Hlen|Hlen]; cbn [negb].
  2: { apply tick_prune. by apply filter_some_removed. }
  apply filter_all in Hlen.
  destruct (Nat.leb_spec MAX_CONCURRENT_JOBS
              (length (filter isProcessing (jobs a)))) as [Hc|Hc].
  { apply tick_refuse; [done|]. by left. }
  rewrite Hlen.
  destruct (Nat.leb_spec MAX_STARTS_PER_WINDOW (length (queueStarts a)))
    as [Hw|Hw].
  { apply tick_refuse; [done|]. right. by left. }
  destruct (list_find isPending (jobs a)) as [[k candidate]|] eqn:Hfind.
  2: { apply tick_refuse; [done|]. right. by right. }
  unfold startJob.
  apply list_find_Some in Hfind as Hcand. destruct Hcand as (Hk & _ & _).
  destruct (list_find_elem_of (λ j, id j = id candidate) (jobs a) candidate)
    as [[k' job] Hjob]; [by eapply list_elem_of_lookup_2|done|].
  rewrite Hjob.
  exact (tick_admit now t1 t2 a k candidate k' job Hlen Hc Hw Hfind Hjob).
Qed.

(** ** One event *)

Lemma dispatch_step ev s s' : dispatch ev s = Some s' → Step s s'.
Proof.
  destruct ev as [uuid clk cfg count|row|now t1 t2|i env now]; simpl.
  - case_bool_decide; [|done]. intros [= <-]. by constructor.
  - destruct (jobs (app s) !! row) as [job|] eqn:Hrow; [|done].
    unfold retryOffered. case_bool_decide; [|done]. intros [= <-].
    by econstructor.
  - case_bool_decide as Ht; [|done].
    pose proof (processQueue_outcome now t1 t2 (app s)) as Hout.
    destruct (processQueue now t1 t2 (app s)) as [a [l|]]; intros [= <-].
    + by econstructor.
    + econstructor; [lia|done].
  - destruct (list_find _ (running s)) as [[k l]|] eqn:Hfind; [|done].
    destruct (execution env (l_config l) now) as [outcome|] eqn:Hex; [|done].
    intros [= <-]. apply list_find_Some in Hfind as (Hk & Hid & _).
    apply execution_terminal in Hex.
    econstructor; [by eapply list_elem_of_lookup_2|done..].
Qed.

(** ** Invariants of the job store *)

Lemma newJobs_ids uuid clk cfg n :
  id <$> ((λ k, newJob (uuid k) cfg (clk k)) <$> seq 0 n) = uuid <$> seq 0 n.
Proof. rewrite <- list_fmap_compose. by apply list_fmap_ext. Qed.

Lemma newJobs_not_processing uuid clk cfg (l : list nat) :
  filter isProcessing ((λ k, newJob (uuid k) cfg (clk k)) <$> l) = [].
Proof.
  induction l as [|k l IH]; [done|].
  rewrite fmap_cons, filter_cons_False; [done|]. by unfold isProcessing.
Qed.

Lemma newJobs_consistent uuid clk cfg (l : list nat) :
  Forall consistent ((λ k, newJob (uuid k) cfg (clk k)) <$> l).
Proof. apply Forall_fmap, Forall_forall. intros k _. by unfold consistent. Qed.

Lemma consistent_update (i : string) (st : JobStatus) (u : PartialJob)
    (l : list Job) (target : Job) :
  NoDup (id <$> l) → target ∈ l → id target = i →
  consistent (spread target st u) →
  Forall consistent l → Forall consistent (updateJob i st u <$> l).
Proof.
  intros Hnd Hin Hid Hnew Hall. apply Forall_fmap, Forall_forall.
  intros job Hjob. simpl. unfold updateJob. case_decide as Heq.
  - assert (job = target) as -> by (eapply unique_id; eauto; congruence).
    done.
  - eapply Forall_forall in Hall; eauto.
Qed.

Lemma StoreInv_init t0 : StoreInv (init t0).
Proof.
  split; simpl.
  - constructor.
  - constructor.
  - intros l Hl. by apply elem_of_nil in Hl.
  - unfold processingCount, MAX_CONCURRENT_JOBS. simpl. lia.
  - constructor.
Qed.

Lemma StoreInv_add s uuid clk cfg count :
  NoDup ((id <$> jobs (app s)) ++ drawn uuid count) →
  StoreInv s → StoreInv (withApp (addJobs uuid clk cfg count (app s)) s).
Proof.
  intros Hfresh [Hids Hlaunch Hrun Hconc Hcons].
  unfold addJobs, drawn in *.
  destruct (arrayFromLength count) as [n|]; [|by split].
  split; simpl.
  - by rewrite fmap_app, newJobs_ids.
  - done.
  - intros l Hl. destruct (Hrun l Hl) as (job & Hjob & Hrest).
    exists job. split; [|done]. apply elem_of_app. by left.
  - unfold processingCount in *. simpl.
    by rewrite filter_app, newJobs_not_processing, app_nil_r.
  - apply Forall_app. split; [done|]. apply newJobs_consistent.
Qed.

Lemma StoreInv_retry s row job :
  jobs (app s) !! row = Some job → status job = FAILED →
  StoreInv s → StoreInv (withApp (handleRetry (id job) (app s)) s).
Proof.
  intros Hrow Hfailed [Hids Hlaunch Hrun Hconc Hcons].
  assert (job ∈ jobs (app s)) as Hin by (by eapply list_elem_of_lookup_2).
  split; simpl.
  - by rewrite updateJob_ids by auto with queue.
  - done.
  - intros l Hl. destruct (Hrun l Hl) as (job' & Hjob' & Hid & Hst).
    exists job'. split; [|done]. apply updateJob_elem; [done|].
    intros Heq. assert (job' = job) by (eapply unique_id; eauto).
    congruence.
  - unfold processingCount in *. simpl.
    etrans; [apply updateJob_processing_mono; auto with queue|done].
  - eapply consistent_update; eauto.
    eapply Forall_forall in Hcons; [|exact Hin].
    unfold consistent in *. rewrite Hfailed in Hcons. simpl. tauto.
Qed.

Lemma StoreInv_tick s now t1 t2 a launch :
  TickOutcome now t1 t2 (app s) (a, launch) →
  StoreInv s →
  StoreInv {| app := a; running := running s ++ option_list launch;
              clock := clock s; admissions := admissions s |}.
Proof.
  intros Hout [Hids Hlaunch Hrun Hconc Hcons].
  inversion Hout as [Hlen|Hall Hwhy|k candidate k' job Hall Hc Hw Hfind Hjob];
    subst; simpl.
  - split; simpl; rewrite ?app_nil_r; done.
  - split; simpl; rewrite ?app_nil_r; done.
  - apply list_find_Some in Hfind as (Hk & Hpending & _).
    assert (candidate ∈ jobs (app s)) as Hin
      by (by eapply list_elem_of_lookup_2).
    split; simpl.
    + by rewrite updateJob_ids by auto with queue.
    + rewrite fmap_app. apply NoDup_app. split; [done|]. split.
      * intros i [l [-> Hl]]%list_elem_of_fmap Hi.
        apply list_elem_of_singleton in Hi. simpl in Hi.
        destruct (Hrun l Hl) as (job' & Hjob' & Hid & Hst).
        assert (job' = candidate) by (eapply unique_id; eauto; congruence).
        unfold isPending in Hpending. congruence.
      * apply NoDup_singleton.
    + intros l [Hl|Hl%list_elem_of_singleton]%elem_of_app.
      * destruct (Hrun l Hl) as (job' & Hjob' & Hid & Hst).
        exists (updateJob (id candidate) PROCESSING (startedUpdates t1) job').
        split; [by apply list_elem_of_fmap_2|].
        rewrite updateJob_id, updateJob_status by auto with queue.
        split; [done|]. by case_decide.
      * subst l. simpl.
        exists (updateJob (id candidate) PROCESSING (startedUpdates t1) candidate).
        split; [by apply list_elem_of_fmap_2|].
        rewrite updateJob_id, updateJob_status by auto with queue.
        split; [done|]. by case_decide.
    + unfold processingCount in *. simpl.
      etrans; [apply updateJob_processing_le; auto with queue|].
      unfold MAX_CONCURRENT_JOBS in *. lia.
    + eapply consistent_update; eauto.
      eapply Forall_forall in Hcons; [|exact Hin].
      unfold consistent, isPending in *. rewrite Hpending in Hcons. simpl. tauto.
Qed.

Lemma StoreInv_settle s i now l outcome :
  l ∈ running s → l_id l = i → Terminal now outcome →
  StoreInv s →
  StoreInv {| app := finishJob i outcome (app s);
              running := filter (λ l, l_id l ≠ i) (running s);
              clock := clock s; admissions := admissions s |}.
Proof.
  intros Hl Hid Hterm [Hids Hlaunch Hrun Hconc Hcons].
  destruct (Hrun l Hl) as (target & Hin & Htid & Hst).
  assert (plain (snd outcome) ∧ fst outcome ≠ PROCESSING) as [Hplain Hne]
    by (by destruct Hterm).
  split; simpl.
  - by rewrite updateJob_ids.
  - eapply sublist_NoDup; [exact Hlaunch|].
    apply fmap_sublist, sublist_filter.
  - intros l' [Hne' Hl']%list_elem_of_filter.
    destruct (Hrun l' Hl') as (job' & Hjob' & Hid' & Hst').
    exists job'. split; [|done]. apply updateJob_elem; [done|congruence].
  - unfold processingCount in *. simpl.
    etrans; [by apply updateJob_processing_mono|done].
  - eapply consistent_update; eauto; [congruence|].
    eapply Forall_forall in Hcons; [|exact Hin].
    unfold consistent in *. rewrite Hst in Hcons.
    destruct Hcons as (Herr & Huri & Hurl).
    destruct Hterm; simpl; rewrite ?Herr, ?Huri, ?Hurl; eauto.
Qed.

Lemma StoreInv_step s s' : Step s s' → StoreInv s → StoreInv s'.
Proof.
  intros Hstep Hinv.
  destruct Hstep as [uuid clk cfg count Hfresh|row job Hrow Hfailed
                    |now t1 t2 a Hnow Hout|now t1 t2 a l Hnow Hout
                    |i now l outcome Hl Hid Hterm].
  - by apply StoreInv_add.
  - by eapply StoreInv_retry.
  - pose proof (StoreInv_tick s _ _ _ _ _ Hout Hinv) as [? Hlaunch Hrun ? ?].
    simpl in *. rewrite app_nil_r in Hlaunch, Hrun. by split.
  - pose proof (StoreInv_tick s _ _ _ _ _ Hout Hinv) as [? ? ? ? ?]. by split.
  - by eapply StoreInv_settle.
Qed.

Lemma reachable_StoreInv s : reachable s → StoreInv s.
Proof.
  induction 1 as [t0|s ev s' _ IH Hev].
  - apply StoreInv_init.
  - eapply StoreInv_step; [by eapply dispatch_step|done].
Qed.

(** ** Invariants of the rate window *)

Lemma filter_ext_elem {A} (P Q : A → Prop) `{!∀ x, Decision (P x)}
    `{!∀ x, Decision (Q x)} (l : list A) :
  (∀ x, x ∈ l → P x ↔ Q x) → filter P l = filter Q l.
Proof.
  induction l as [|x l IH]; [done|]. intros Hext.
  rewrite !filter_cons.
  assert (P x ↔ Q x) as Hx by (apply Hext; left).
  rewrite IH by (intros y Hy; apply Hext; by right).
  do 2 case_decide; tauto.
Qed.

(** A later tick sees no timestamp that an earlier tick pruned. *)
Lemma prune_later now T (starts : list Z) :
  (now ≤ T)%Z →
  filter (validStart T) (filter (validStart now) starts)
  = filter (validStart T) starts.
Proof.
  intros Hle. induction starts as [|t starts IH]; [done|].
  rewrite !filter_cons. unfold validStart in *.
  repeat case_decide; rewrite ?filter_cons; repeat case_decide;
    try lia; by rewrite IH.
Qed.

Lemma RateInv_init t0 : RateInv (init t0).
Proof.
  split; simpl; try done.
  - unfold MAX_STARTS_PER_WINDOW. lia.
  - intros t Ht. by apply elem_of_nil in Ht.
  - intros _. unfold MAX_STARTS_PER_WINDOW. lia.
Qed.

Lemma addJobs_queueStarts uuid clk cfg count a :
  queueStarts (addJobs uuid clk cfg count a) = queueStarts a.
Proof. unfold addJobs. by destruct (arrayFromLength count). Qed.

(** An event that leaves the rate window, the clock and the record of
    admissions as they are. *)
Lemma RateInv_frame s s' :
  queueStarts (app s') = queueStarts (app s) →
  clock s' = clock s → admissions s' = admissions s →
  RateInv s → RateInv s'.
Proof.
  intros Hq Hc Ha [Hsize Hpast Hrecent Hwin].
  split; rewrite ?Hq, ?Hc, ?Ha; done.
Qed.

Lemma RateInv_tick_quiet s now t1 t2 a :
  (clock s ≤ now)%Z →
  TickOutcome now t1 t2 (app s) (a, None) →
  RateInv s →
  RateInv {| app := a; running := running s; clock := now;
             admissions := admissions s |}.
Proof.
  intros Hnow Hout [Hsize Hpast Hrecent Hwin].
  inversion Hout as [Hlen|Hall Hwhy|]; subst; split; simpl; try done.
  - pose proof (length_filter (validStart now) (queueStarts (app s))). lia.
  - intros t Ht. specialize (Hpast t Ht). lia.
  - intros T HT. rewrite prune_later by done. apply Hrecent. lia.
  - intros t Ht. specialize (Hpast t Ht). lia.
  - intros T HT. apply Hrecent. lia.
Qed.

Lemma RateInv_tick_admit s now t1 t2 a l :
  (clock s ≤ now ∧ now ≤ t1 ∧ t1 ≤ t2)%Z →
  TickOutcome now t1 t2 (app s) (a, Some l) →
  RateInv s →
  RateInv {| app := a; running := running s ++ [l]; clock := t2;
             admissions := admissions s ++ [t2] |}.
Proof.
  intros Hnow Hout [Hsize Hpast Hrecent Hwin].
  inversion Hout as [| |k candidate k' job Hall Hc Hw Hfind Hjob]; subst.
  assert (∀ T, (t2 ≤ T)%Z →
            filter (validStart T) (admissions s ++ [t2])
            = filter (validStart T) (queueStarts (app s) ++ [t2])) as Hboth.
  { intros T HT. rewrite !filter_app, Hrecent by lia. done. }
  split; simpl.
  - rewrite length_app. simpl. lia.
  - intros t [Ht|Ht%list_elem_of_singleton]%elem_of_app.
    + specialize (Hpast t Ht). lia.
    + lia.
  - done.
  - intros T. destruct (decide (t2 ≤ T)%Z) as [HT|HT].
    + rewrite (filter_ext_elem (inWindow T) (validStart T)).
      * rewrite Hboth by done.
        etrans; [apply length_filter|]. rewrite length_app. simpl. lia.
      * intros t [Ht|Ht%list_elem_of_singleton]%elem_of_app;
          unfold inWindow, validStart.
        -- specialize (Hpast t Ht). split; [tauto|]. intros ?. split; [lia|done].
        -- subst t. split; [tauto|]. intros ?. split; [lia|done].
    + rewrite filter_app, filter_cons_False, filter_nil, app_nil_r.
      * apply Hwin.
      * unfold inWindow. lia.
Qed.

Lemma RateInv_step s s' : Step s s' → RateInv s → RateInv s'.
Proof.
  intros Hstep Hinv.
  destruct Hstep as [uuid clk cfg count Hfresh|row job Hrow Hfailed
                    |now t1 t2 a Hnow Hout|now t1 t2 a l Hnow Hout
                    |i now l outcome Hl Hid Hterm].
  - eapply RateInv_frame; [apply addJobs_queueStarts|done..].
  - eapply RateInv_frame; [| | |exact Hinv]; done.
  - by eapply RateInv_tick_quiet.
  - by eapply RateInv_tick_admit.
  - eapply RateInv_frame; [| | |exact Hinv]; done.
Qed.

Lemma reachable_RateInv s : reachable s → RateInv s.
Proof.
  induction 1 as [t0|s ev s' _ IH Hev].
  - apply RateInv_init.
  - eapply RateInv_step; [by eapply dispatch_step|done].
Qed.

(** ** Admission *)

Lemma admittedBetween_same (l : list Job) : admittedBetween l l = [].
Proof.
  unfold admittedBetween. induction l as [|job l IH]; [done|].
  simpl. rewrite filter_cons_False; [done|]. simpl. intros [? ?]. congruence.
Qed.

Lemma admittedBetween_update (i : string) (st : JobStatus) (u : PartialJob)
    (l : list Job) :
  NoDup (id <$> l) →
  length (admittedBetween l (updateJob i st u <$> l)) ≤ 1.
Proof.
  induction l as [|job l IH]; [simpl; lia|].
  rewrite !fmap_cons, NoDup_cons. intros [Hnotin Hnd].
  unfold admittedBetween in *. simpl. rewrite filter_cons.
  destruct (decide (id job = i)) as [Heq|Hne].
  - rewrite Heq in Hnotin. rewrite (updateJob_absent i st u l) by done.
    fold (admittedBetween l l). rewrite admittedBetween_same.
    case_decide; simpl; lia.
  - rewrite (updateJob_other i st u job) by done.
    rewrite decide_False by (simpl; intros [? ?]; congruence).
    by apply IH.
Qed.

Lemma run_reachable evs s s' : reachable s → run evs s = Some s' → reachable s'.
Proof.
  revert s. induction evs as [|ev evs IH]; simpl; intros s Hs Hrun.
  - by simplify_eq.
  - destruct (dispatch ev s) as [s1|] eqn:Hev; [|done].
    eapply IH; [|done]. by eapply reachable_step.
Qed.

(** An update to a status other than [PROCESSING] leaves a processing
    job only where one was. *)
Lemma updateJob_was_processing (i : string) (st : JobStatus) (u : PartialJob)
    (l : list Job) (k : nat) (job' : Job) :
  plain u → st ≠ PROCESSING →
  (updateJob i st u <$> l) !! k = Some job' → status job' = PROCESSING →
  ∃ job, l !! k = Some job ∧ status job = PROCESSING.
Proof.
  intros Hplain Hst Hk Hjob'.
  apply list_lookup_fmap_Some in Hk as (job & -> & Hk).
  exists job. split; [done|].
  rewrite updateJob_status in Hjob' by done. by case_decide.
Qed.

Lemma only_tick_admits ev s s' k job' :
  dispatch ev s = Some s' →
  jobs (app s') !! k = Some job' → status job' = PROCESSING →
  (∃ job, jobs (app s) !! k = Some job ∧ status job = PROCESSING)
  ∨ (∃ now t1 t2, ev = Tick now t1 t2).
Proof.
  destruct ev as [uuid clk cfg count|row|now t1 t2|i env now]; simpl.
  - case_bool_decide; [|done]. intros [= <-]. simpl. unfold addJobs.
    destruct (arrayFromLength count) as [n|]; simpl; [|by eauto].
    intros [Hk|(_ & Hk)]%lookup_app_Some Hst; [by eauto|].
    apply list_lookup_fmap_Some in Hk as (? & -> & _). by simpl in Hst.
  - destruct (jobs (app s) !! row) as [job|]; [|done].
    destruct (retryOffered job); [|done]. intros [= <-]. simpl.
    intros Hk Hst. left.
    eapply (updateJob_was_processing _ PENDING retryUpdates);
      [apply plain_retry|done|exact Hk|done].
  - intros _ _ _. right. eauto.
  - destruct (list_find _ (running s)) as [[? l]|]; [|done].
    destruct (execution env (l_config l) now) as [outcome|] eqn:Hex; [|done].
    intros [= <-]. simpl. intros Hk Hst. left.
    apply execution_terminal in Hex.
    destruct Hex as [m Hm|uri blobUrl]; simpl in Hk.
    + eapply (updateJob_was_processing _ FAILED (failedUpdates m));
        [apply plain_failed|done|exact Hk|done].
    + eapply (updateJob_was_processing _ COMPLETED
                (completedUpdates now uri blobUrl));
        [apply plain_completed|done|exact Hk|done].
Qed.

(** The concurrency gate of the tick. *)
Lemma processQueue_concurrency_gate now t1 t2 a :
  MAX_CONCURRENT_JOBS ≤ processingCount a →
  jobs (fst (processQueue now t1 t2 a)) = jobs a
  ∧ snd (processQueue now t1 t2 a) = None.
Proof.
  intros Hfull. destruct (processQueue_outcome now t1 t2 a); simpl; try done.
  lia.
Qed.

Lemma busy_reachable : reachable busy.
Proof. apply (run_reachable busyEvents (init 0)); [constructor|reflexivity]. Qed.

Lemma settled_reachable : reachable settled.
Proof.
  apply (run_reachable settledEvents (init 0)); [constructor|reflexivity].
Qed.

(** ** The concurrency cap *)

(** C1.  In every reachable state at most [MAX_CONCURRENT_JOBS] = 4 jobs
    are processing; a tick that finds 4 or more processing jobs changes
    no job and launches nothing; and after any event a job is processing
    only if it already was, unless the event is a tick. *)
Theorem processing_never_exceeds_max_concurrent (s : System) :
  reachable s →
  processingCount (app s) ≤ 4
  ∧ (∀ now t1 t2,
       4 ≤ processingCount (app s) →
       jobs (fst (processQueue now t1 t2 (app s))) = jobs (app s)
       ∧ snd (processQueue now t1 t2 (app s)) = None)
  ∧ (∀ ev s' k job',
       dispatch ev s = Some s' →
       jobs (app s') !! k = Some job' → status job' = PROCESSING →
       (∃ job, jobs (app s) !! k = Some job ∧ status job = PROCESSING)
       ∨ (∃ now t1 t2, ev = Tick now t1 t2)).
Proof.
  intros Hs. split; [|split].
  - apply reachable_StoreInv in Hs. apply (inv_concurrent s Hs).
  - intros now t1 t2. apply processQueue_concurrency_gate.
  - intros ev s' k job'. apply only_tick_admits.
Qed.

Lemma processing_never_exceeds_max_concurrent_witness :
  reachable busy ∧ processingCount (app busy) = 4
  ∧ processingCount (app busy) ≤ 4.
Proof.
  split; [apply busy_reachable|]. split; [reflexivity|].
  apply (processing_never_exceeds_max_concurrent busy busy_reachable).
Defined.

(** ** The rate window *)

(** The rate-window gate of the tick and what a tick leaves in the
    rate-window set. *)
Lemma processQueue_window now t1 t2 a :
  (MAX_STARTS_PER_WINDOW ≤ length (filter (validStart now) (queueStarts a)) →
     jobs (fst (processQueue now t1 t2 a)) = jobs a
     ∧ snd (processQueue now t1 t2 a) = None)
  ∧ (snd (processQueue now t1 t2 a) = None →
     queueStarts (fst (processQueue now t1 t2 a))
     = filter (validStart now) (queueStarts a))
  ∧ (∀ l, snd (processQueue now t1 t2 a) = Some l →
     filter (validStart now) (queueStarts a) = queueStarts a
     ∧ queueStarts (fst (processQueue now t1 t2 a)) = queueStarts a ++ [t2]).
Proof.
  destruct (processQueue_outcome now t1 t2 a)
    as [Hlen|Hall Hwhy|k candidate k' job Hall Hc Hw Hfind Hjob]; simpl.
  - repeat split; intros; simplify_eq; done.
  - rewrite Hall. repeat split; intros; simplify_eq; done.
  - rewrite Hall. unfold MAX_STARTS_PER_WINDOW in *.
    repeat split; intros; simplify_eq; try done; lia.
Qed.

(** C2.  In every reachable state and for every moment [T], at most
    [MAX_STARTS_PER_WINDOW] = 4 of the admission timestamps ever recorded
    lie in the trailing window [T - 60000 < t <= T], and at most 4
    timestamps of the rate-window set are unexpired at [T].  A tick keeps
    exactly the timestamps with [now - t < 60000] when it admits nothing,
    admits nothing when 4 or more of them are unexpired, and appends one
    timestamp to an unpruned set when it admits. *)
Theorem admissions_per_window_at_most_max (s : System) :
  reachable s →
  (∀ T, length (filter (inWindow T) (admissions s)) ≤ 4)
  ∧ (∀ T, length (filter (validStart T) (queueStarts (app s))) ≤ 4)
  ∧ (∀ now t1 t2,
       (4 ≤ length (filter (validStart now) (queueStarts (app s))) →
          jobs (fst (processQueue now t1 t2 (app s))) = jobs (app s)
          ∧ snd (processQueue now t1 t2 (app s)) = None)
       ∧ (snd (processQueue now t1 t2 (app s)) = None →
          queueStarts (fst (processQueue now t1 t2 (app s)))
          = filter (λ t, now - t < 60000)%Z (queueStarts (app s)))
       ∧ (∀ l, snd (processQueue now t1 t2 (app s)) = Some l →
          filter (λ t, now - t < 60000)%Z (queueStarts (app s))
          = queueStarts (app s)
          ∧ queueStarts (fst (processQueue now t1 t2 (app s)))
            = queueStarts (app s) ++ [t2])).
Proof.
  intros Hs. apply reachable_RateInv in Hs as [Hsize Hpast Hrecent Hwin].
  split; [|split].
  - apply Hwin.
  - intros T. etrans; [apply length_filter|done].
  - intros now t1 t2. apply processQueue_window.
Qed.

Lemma admissions_per_window_at_most_max_witness :
  reachable busy
  ∧ length (filter (inWindow 4010) (admissions busy)) = 4
  ∧ ∀ T, length (filter (inWindow T) (admissions busy)) ≤ 4.
Proof.
  split; [apply busy_reachable|]. split; [reflexivity|].
  apply (admissions_per_window_at_most_max busy busy_reachable).
Defined.

(** ** One admission per tick *)

(** C3.  One execution of the tick, from any state of the store whose
    identifiers are distinct, moves at most one job from pending to
    processing. *)
Theorem tick_admits_at_most_one (a : App) (now t1 t2 : Z) :
  NoDup (id <$> jobs a) →
  length (admittedBetween (jobs a) (jobs (fst (processQueue now t1 t2 a)))) ≤ 1.
Proof.
  intros Hids.
  destruct (processQueue_outcome now t1 t2 a)
    as [Hlen|Hall Hwhy|k candidate k' job Hall Hc Hw Hfind Hjob]; simpl.
  - rewrite admittedBetween_same. simpl. lia.
  - rewrite admittedBetween_same. simpl. lia.
  - by apply admittedBetween_update.
Qed.

Lemma tick_admits_at_most_one_witness :
  NoDup (id <$> jobs drained)
  ∧ length (admittedBetween (jobs drained)
              (jobs (fst (processQueue 70010 70010 70011 drained)))) = 1
  ∧ length (admittedBetween (jobs drained)
              (jobs (fst (processQueue 70010 70010 70011 drained)))) ≤ 1.
Proof.
  assert (NoDup (id <$> jobs drained)) as Hids.
  { refine (bool_decide_unpack _ _). vm_compute. exact I. }
  split; [exact Hids|]. split; [reflexivity|].
  apply (tick_admits_at_most_one drained 70010 70010 70011 Hids).
Defined.

(** ** Pruning defers admission *)

(** C4.  A tick whose pruning removes at least one timestamp writes the
    pruned set back, changes no job and launches nothing. *)
Theorem prune_defers_admission (a : App) (now t1 t2 : Z) :
  length (filter (validStart now) (queueStarts a)) < length (queueStarts a) →
  processQueue now t1 t2 a
  = ({| jobs := jobs a;
        queueStarts := filter (validStart now) (queueStarts a) |}, None).
Proof.
  intros Hlen. unfold processQueue.
  destruct (Nat.eqb_spec (length (filter (validStart now) (queueStarts a)))
                         (length (queueStarts a))) as [Heq|Hne]; [lia|done].
Qed.

Lemma prune_defers_admission_witness :
  length (filter (validStart 62000) (queueStarts retried))
  < length (queueStarts retried)
  ∧ processQueue 62000 62000 62001 retried
    = ({| jobs := jobs retried; queueStarts := [2011; 3011]%Z |}, None).
Proof.
  assert (length (filter (validStart 62000) (queueStarts retried))
          < length (queueStarts retried)) as Hlen by (vm_compute; lia).
  split; [exact Hlen|].
  apply (prune_defers_admission retried 62000 62000 62001 Hlen).
Defined.

(** ** Admission order *)

(** With distinct identifiers [updateJobStatus] rewrites one position. *)
Lemma updateJob_insert (st : JobStatus) (u : PartialJob) (l : list Job)
    (k : nat) (target : Job) :
  NoDup (id <$> l) → l !! k = Some target →
  updateJob (id target) st u <$> l = <[k := spread target st u]> l.
Proof.
  intros Hnd Hk. apply list_eq. intros n.
  rewrite list_lookup_fmap.
  destruct (decide (n = k)) as [->|Hne].
  - rewrite list_lookup_insert_eq by (by eapply lookup_lt_Some).
    rewrite Hk. simpl. unfold updateJob. by rewrite decide_True.
  - rewrite list_lookup_insert_ne by done.
    destruct (l !! n) as [job|] eqn:Hn; [|done]. simpl. f_equal.
    apply updateJob_other. intros Hid. apply Hne.
    eapply NoDup_lookup; [exact Hnd| |].
    + rewrite list_lookup_fmap, Hn. reflexivity.
    + rewrite list_lookup_fmap, Hk. simpl. by rewrite Hid.
Qed.

(** C5.  When a tick launches an execution, the admitted job is the
    first pending job in store order: it is pending, no job before it is
    pending, and its position is the only one that the tick rewrites;
    a tick that launches nothing leaves the jobs as they are; without a
    pending job the tick launches nothing; and a job that stands behind
    a pending job is never touched by the tick. *)
Theorem first_pending_is_admitted (a : App) (now t1 t2 : Z) :
  NoDup (id <$> jobs a) →
  (∀ l, snd (processQueue now t1 t2 a) = Some l →
     ∃ k candidate,
       jobs a !! k = Some candidate
       ∧ status candidate = PENDING
       ∧ (∀ k' earlier,
            k' < k → jobs a !! k' = Some earlier → status earlier ≠ PENDING)
       ∧ l = {| l_id := id candidate; l_config := config candidate |}
       ∧ jobs (fst (processQueue now t1 t2 a))
         = <[k := spread candidate PROCESSING (startedUpdates t1)]> (jobs a))
  ∧ (snd (processQueue now t1 t2 a) = None →
     jobs (fst (processQueue now t1 t2 a)) = jobs a)
  ∧ (Forall (λ job, status job ≠ PENDING) (jobs a) →
     snd (processQueue now t1 t2 a) = None)
  ∧ (∀ k1 k2 j1 j2,
       k1 < k2 → jobs a !! k1 = Some j1 → jobs a !! k2 = Some j2 →
       status j1 = PENDING →
       jobs (fst (processQueue now t1 t2 a)) !! k2 = Some j2).
Proof.
  intros Hids.
  destruct (processQueue_outcome now t1 t2 a)
    as [Hlen|Hall Hwhy|k candidate k' job Hall Hc Hw Hfind Hjob]; simpl.
  - repeat split; intros; simplify_eq; done.
  - repeat split; intros; simplify_eq; done.
  - apply list_find_Some in Hfind as (Hk & Hpending & Hfirst).
    apply list_find_Some in Hjob as (Hk' & Hid & _).
    assert (job = candidate) as ->.
    { eapply unique_id; eauto; by eapply list_elem_of_lookup_2. }
    split; [|split; [|split]].
    + intros l [= <-]. exists k, candidate.
      split; [done|]. split; [done|]. split.
      * intros n earlier Hn Hearlier. by eapply Hfirst.
      * split; [done|]. by apply updateJob_insert.
    + done.
    + intros Hnone. exfalso.
      eapply Forall_forall in Hnone; [|by eapply list_elem_of_lookup_2].
      done.
    + intros k1 k2 j1 j2 Hlt H1 H2 Hp.
      assert (k ≤ k1) as Hle.
      { destruct (decide (k ≤ k1)) as [|Hgt]; [done|].
        exfalso. eapply (Hfirst k1 j1); [done|lia|done]. }
      rewrite (updateJob_insert _ _ _ k candidate) by done.
      rewrite list_lookup_insert_ne by lia. done.
Qed.

Lemma first_pending_is_admitted_witness :
  NoDup (id <$> jobs drained)
  ∧ jobs drained !! 4 = Some (newJob "E"%string sampleConfig 5)
  ∧ jobs (fst (processQueue 70010 70010 70011 drained)) !! 4
    = Some (newJob "E"%string sampleConfig 5).
Proof.
  assert (NoDup (id <$> jobs drained)) as Hids.
  { refine (bool_decide_unpack _ _). vm_compute. exact I. }
  split; [exact Hids|]. split; [reflexivity|].
  destruct (first_pending_is_admitted drained 70010 70010 70011 Hids)
    as (_ & _ & _ & Hbehind).
  eapply (Hbehind 0 4); [lia|reflexivity|reflexivity|reflexivity].
Defined.

(** ** Error and result *)

(** C6.  In every reachable state every job is consistent: a pending or
    processing job has neither error nor result, a completed job has a
    result and no error, a failed job has an error and no result; and
    every event (creation, retry, tick, settlement) leads to such a
    state again. *)
Theorem error_and_result_follow_status (s : System) :
  reachable s →
  Forall consistent (jobs (app s))
  ∧ (∀ ev s', dispatch ev s = Some s' → Forall consistent (jobs (app s'))).
Proof.
  intros Hs. split.
  - apply reachable_StoreInv in Hs. apply (inv_consistent s Hs).
  - intros ev s' Hev.
    assert (reachable s') as Hs' by (by eapply reachable_step).
    apply reachable_StoreInv in Hs'. apply (inv_consistent s' Hs').
Qed.

Lemma error_and_result_follow_status_witness :
  reachable settled
  ∧ (status <$> jobs (app settled)
     = [FAILED; COMPLETED; PROCESSING; PROCESSING; PENDING])
  ∧ Forall consistent (jobs (app settled)).
Proof.
  split; [apply settled_reachable|]. split; [reflexivity|].
  apply (error_and_result_follow_status settled settled_reachable).
Defined.

(** ** Completed is terminal *)

Lemma completed_step s s' k job :
  StoreInv s → Step s s' →
  jobs (app s) !! k = Some job → status job = COMPLETED →
  jobs (app s') !! k = Some job.
Proof.
  intros [Hids _ Hrun _ _] Hstep Hk Hdone.
  assert (job ∈ jobs (app s)) as Hin by (by eapply list_elem_of_lookup_2).
  assert (∀ other, other ∈ jobs (app s) → status other ≠ COMPLETED →
            id job ≠ id other) as Hdistinct.
  { intros other Hother Hst Hid.
    assert (job = other) by (eapply unique_id; eauto). congruence. }
  destruct Hstep as [uuid clk cfg count Hfresh|row target Hrow Hfailed
                    |now t1 t2 a Hnow Hout|now t1 t2 a l Hnow Hout
                    |i now l outcome Hl Hid Hterm]; simpl.
  - unfold addJobs. destruct (arrayFromLength count); [|done].
    simpl. by apply lookup_app_l_Some.
  - apply updateJob_lookup; [done|].
    apply Hdistinct; [by eapply list_elem_of_lookup_2|congruence].
  - inversion Hout; by subst.
  - inversion Hout as [| |n candidate n' first Hall Hc Hw Hfind Hfirst]; subst.
    simpl. apply list_find_Some in Hfind as (Hn & Hpending & _).
    apply updateJob_lookup; [done|].
    apply Hdistinct; [by eapply list_elem_of_lookup_2|].
    unfold isPending in Hpending. congruence.
  - destruct (Hrun l Hl) as (target & Htarget & Htid & Hst).
    apply updateJob_lookup; [done|].
    rewrite <- Hid, <- Htid. apply Hdistinct; [done|congruence].
Qed.

(** C7.  A completed job stays as it is, and so stays completed, under
    every sequence of events (ticks, retries, job creations,
    settlements) applied to a reachable state. *)
Theorem completed_is_terminal (s s' : System) (evs : list Event)
    (k : nat) (job : Job) :
  reachable s → run evs s = Some s' →
  jobs (app s) !! k = Some job → status job = COMPLETED →
  jobs (app s') !! k = Some job
  ∧ ∃ job', jobs (app s') !! k = Some job' ∧ status job' = COMPLETED.
Proof.
  intros Hs Hrun Hk Hdone.
  assert (jobs (app s') !! k = Some job) as Hk'; [|by eauto].
  revert s Hs Hrun Hk. induction evs as [|ev evs IH]; simpl; intros s Hs Hrun Hk.
  - by simplify_eq.
  - destruct (dispatch ev s) as [s1|] eqn:Hev; [|done].
    apply (IH s1); [by eapply reachable_step|done|].
    eapply completed_step; eauto using reachable_StoreInv, dispatch_step.
Qed.

Lemma completed_is_terminal_witness :
  reachable settled ∧ run laterEvents settled = Some later
  ∧ (∃ job, jobs (app settled) !! 1 = Some job ∧ status job = COMPLETED
            ∧ jobs (app later) !! 1 = Some job).
Proof.
  split; [apply settled_reachable|]. split; [reflexivity|].
  eexists. split; [reflexivity|]. split; [reflexivity|].
  apply (completed_is_terminal settled later laterEvents 1 _
           settled_reachable eq_refl eq_refl eq_refl).
Defined.

(** ** Retry *)

Lemma handleRetry_idempotent i a :
  handleRetry i (handleRetry i a) = handleRetry i a.
Proof.
  unfold handleRetry, updateJobStatus, setJobs. simpl. f_equal.
  rewrite <- list_fmap_compose. apply list_fmap_ext. intros _ job _. simpl.
  unfold updateJob. destruct (decide (id job = i)) as [Hid|Hid].
  - simpl. by rewrite decide_True.
  - by rewrite decide_False.
Qed.

(** C8.  Retrying a failed job sets its status to pending, clears its
    error and leaves its configuration and every other property as they
    are; retrying twice gives the same store as retrying once. *)
Theorem retry_resets_failed_job (a : App) (k : nat) (job : Job) :
  jobs a !! k = Some job → status job = FAILED →
  jobs (handleRetry (id job) a) !! k
  = Some {| id := id job; config := config job; status := PENDING;
            videoUri := videoUri job; downloadUrl := downloadUrl job;
            error := None; createdAt := createdAt job;
            startedAt := startedAt job; completedAt := completedAt job |}
  ∧ handleRetry (id job) (handleRetry (id job) a) = handleRetry (id job) a.
Proof.
  intros Hk _. split; [|apply handleRetry_idempotent].
  simpl. rewrite list_lookup_fmap, Hk. simpl.
  unfold updateJob. by rewrite decide_True.
Qed.

Lemma retry_resets_failed_job_witness :
  (∃ job, jobs (app settled) !! 0 = Some job ∧ status job = FAILED
          ∧ error job = Some "quota exceeded"%string
          ∧ (status <$> jobs retried !! 0) = Some PENDING
          ∧ (error <$> jobs retried !! 0) = Some None)
  ∧ handleRetry "A"%string retried = retried.
Proof.
  split.
  - eexists. repeat split; reflexivity.
  - apply (retry_resets_failed_job (app settled) 0 _ eq_refl eq_refl).
Defined.

(** ** Failure messages *)

Lemma truthy_false_orElse s d : truthy s = false → orElse s d = d.
Proof.
  unfold truthy, orElse. destruct s as [m|]; [|done].
  by destruct (String.eqb m EmptyString).
Qed.

(** A message that went through one fallback passes the next ones. *)
Lemma orElse_twice s d d' :
  d ≠ EmptyString → orElse (Some (orElse s d)) d' = orElse s d.
Proof. intros Hd. by apply orElse_message, orElse_nonempty. Qed.

(** Membership in a list that is written out. *)
Ltac in_list :=
  repeat first [apply list_elem_of_here | apply list_elem_of_further].

Lemma thrown_recorded env cfg now e :
  thrown env cfg = Some e →
  ∃ fallback,
    fallback ∈ genericMessages
    ∧ execution env cfg now
      = Some (FAILED, failedUpdates (orElse (message e) fallback)).
Proof.
  unfold thrown, execution, generateVideoJob, extractResult, genericMessages.
  destruct (truthy (API_KEY env)); cbn [negb].
  2: { intros [= <-]. exists "Unknown error occurred"%string.
       split; [in_list|done]. }
  destruct (generateVideos env (buildRequest cfg)) as [operation|e0].
  2: { intros [= <-]. exists "Failed to generate video"%string.
       split; [in_list|]. cbn [rethrow message Error].
       by rewrite orElse_twice. }
  destruct (polling (getVideosOperation env) operation)
    as [[operation'|e0]|]; [| |done].
  2: { intros [= <-]. exists "Failed to generate video"%string.
       split; [in_list|]. cbn [rethrow message Error].
       by rewrite orElse_twice. }
  destruct (op_error operation') as [m|].
  { intros [= <-]. exists "Unknown generation error"%string.
    split; [in_list|]. cbn [rethrow message Error].
    by rewrite !orElse_twice. }
  destruct (truthy (op_uri operation')).
  - cbn [rethrow].
    destruct (fetchVideoBlob env (default EmptyString (op_uri operation')))
      as [blobUrl|e0]; [done|].
    intros [= <-]. exists "Unknown error occurred"%string.
    split; [in_list|done].
  - intros [= <-]. exists "Unknown error occurred"%string.
    split; [in_list|done].
Qed.

(** C9.  When the remote operation of an admitted job ends with an error
    whose message is [reported], the execution settles as failed and the
    job becomes [FAILED] with that message as its error, or with the
    generic "Unknown generation error" when the message is missing or
    empty.  Whatever an execution throws, it settles as failed with the
    message of the thrown value, or with one of the generic messages when
    that message is missing or empty; the error of a failed execution is
    always a non-empty string. *)
Theorem remote_error_message_is_recorded (env : Remote) (cfg : JobConfig)
    (now : Z) (submitted operation : Operation) (reported : option string)
    (a : App) (k : nat) (job : Job) :
  truthy (API_KEY env) = true →
  generateVideos env (buildRequest cfg) = Resolved submitted →
  polling (getVideosOperation env) submitted = Some (Resolved operation) →
  op_error operation = Some reported →
  jobs a !! k = Some job →
  (∃ m,
     execution env cfg now = Some (FAILED, failedUpdates m)
     ∧ jobs (finishJob (id job) (FAILED, failedUpdates m) a) !! k
       = Some {| id := id job; config := config job; status := FAILED;
                 videoUri := videoUri job; downloadUrl := downloadUrl job;
                 error := Some m; createdAt := createdAt job;
                 startedAt := startedAt job; completedAt := completedAt job |}
     ∧ (∀ r, reported = Some r → r ≠ EmptyString → m = r)
     ∧ (truthy reported = false → m = "Unknown generation error"%string)
     ∧ m ≠ EmptyString)
  ∧ (∀ env' cfg' now' e,
       thrown env' cfg' = Some e →
       ∃ fallback,
         fallback ∈ genericMessages
         ∧ execution env' cfg' now'
           = Some (FAILED, failedUpdates (orElse (message e) fallback)))
  ∧ (∀ env' cfg' now' u,
       execution env' cfg' now' = Some (FAILED, u) →
       ∃ m, m ≠ EmptyString ∧ u = failedUpdates m).
Proof.
  intros Hkey Hsubmit Hpoll Herr Hk. split; [|split].
  - exists (orElse reported "Unknown generation error"%string).
    split; [|split; [|split; [|split]]].
    + unfold execution, generateVideoJob, extractResult.
      rewrite Hkey, Hsubmit, Hpoll, Herr.
      cbn [negb rethrow message Error].
      by rewrite !orElse_twice.
    + simpl. rewrite list_lookup_fmap, Hk. simpl.
      unfold updateJob. by rewrite decide_True.
    + intros r -> Hr. by apply orElse_message.
    + apply truthy_false_orElse.
    + by apply orElse_nonempty.
  - intros env' cfg' now' e. apply thrown_recorded.
  - intros env' cfg' now' u Hex. apply execution_terminal in Hex.
    inversion Hex; subst. eauto.
Qed.

Lemma remote_error_message_is_recorded_witness :
  execution (failing (Some "quota exceeded"%string)) sampleConfig 5000
  = Some (FAILED, failedUpdates "quota exceeded"%string).
Proof.
  destruct (remote_error_message_is_recorded
              (failing (Some "quota exceeded"%string)) sampleConfig 5000
              sampleStep
              {| done := true; op_error := Some (Some "quota exceeded"%string);
                 op_uri := None |}
              (Some "quota exceeded"%string) (app busy) 0
              (spread (newJob "A"%string sampleConfig 5) PROCESSING
                 (startedUpdates 10))
              eq_refl eq_refl eq_refl eq_refl eq_refl)
    as [(m & Hex & _ & Hm & _) _].
  rewrite (Hm "quota exceeded"%string eq_refl) in Hex; [exact Hex|done].
Defined.

(** ** Job creation *)

(** C10.  [addJobs] with a count of zero or less creates no job: the
    state after the call is the state before it. *)
Theorem non_positive_count_creates_nothing (uuid : nat → string)
    (clk : nat → Z) (cfg : JobConfig) (count : Z) (a : App) :
  (count ≤ 0)%Z → addJobs uuid clk cfg count a = a.
Proof.
  intros Hcount. unfold addJobs, arrayFromLength.
  destruct (Z.leb_spec count 0) as [_|Hpos]; [|lia].
  destruct a as [js qs]. unfold setJobs. simpl. by rewrite app_nil_r.
Qed.

Lemma non_positive_count_creates_nothing_witness :
  (-3 ≤ 0)%Z
  ∧ addJobs sampleUuid (λ _, 5%Z) sampleConfig (-3) (app settled)
    = app settled.
Proof.
  split; [lia|].
  apply (non_positive_count_creates_nothing sampleUuid (λ _, 5%Z)
           sampleConfig (-3) (app settled)).
  lia.
Defined.

(** * Further properties *)

(** ** Creation and update of jobs *)

(** X1.  [addJobs] with a count between 1 and [2^32 - 1] leaves the rate
    window and the jobs already in the store as they are and appends
    exactly [count] jobs, in the order of their creation, each pending,
    with the given configuration, without error, result or start. *)
Theorem addJobs_appends_pending_jobs (uuid : nat → string) (clk : nat → Z)
    (cfg : JobConfig) (count : Z) (a : App) :
  (0 < count ≤ 4294967295)%Z →
  queueStarts (addJobs uuid clk cfg count a) = queueStarts a
  ∧ length (jobs (addJobs uuid clk cfg count a))
    = length (jobs a) + Z.to_nat count
  ∧ (∀ k job, jobs a !! k = Some job →
       jobs (addJobs uuid clk cfg count a) !! k = Some job)
  ∧ (∀ k, k < Z.to_nat count →
       jobs (addJobs uuid clk cfg count a) !! (length (jobs a) + k)
       = Some {| id := uuid k; config := cfg; status := PENDING;
                 videoUri := None; downloadUrl := None; error := None;
                 createdAt := clk k; startedAt := None;
                 completedAt := None |}).
Proof.
  intros [Hpos Hmax]. unfold addJobs, arrayFromLength.
  destruct (Z.leb_spec count 0) as [|_]; [lia|].
  destruct (Z.leb_spec count 4294967295) as [_|]; [|lia].
  simpl. split; [done|]. split; [|split].
  - by rewrite length_app, length_fmap, length_seq.
  - intros k job Hk. by apply lookup_app_l_Some.
  - intros k Hk. rewrite lookup_app_r by lia.
    replace (length (jobs a) + k - length (jobs a)) with k by lia.
    rewrite list_lookup_fmap, lookup_seq_lt by done. done.
Qed.

Lemma addJobs_appends_pending_jobs_witness :
  (0 < 3 ≤ 4294967295)%Z
  ∧ length (jobs (addJobs sampleUuid (λ _, 5%Z) sampleConfig 3 drained))
    = length (jobs drained) + 3
  ∧ (status <$> jobs (addJobs sampleUuid (λ _, 5%Z) sampleConfig 3 drained)
       !! (length (jobs drained) + 2)) = Some PENDING.
Proof.
  assert (0 < 3 ≤ 4294967295)%Z as Hcount by lia.
  split; [exact Hcount|].
  destruct (addJobs_appends_pending_jobs sampleUuid (λ _, 5%Z) sampleConfig 3
              drained Hcount) as (_ & Hlen & _ & Hnew).
  split; [exact Hlen|]. rewrite (Hnew 2) by (simpl; lia). done.
Defined.

(** X2.  [updateJobStatus] never changes the number or the order of the
    jobs, nor the rate window, nor a job with another identifier; with
    an identifier that no job has it changes nothing at all. *)
Theorem updateJobStatus_reaches_only_its_id (i : string) (st : JobStatus)
    (u : PartialJob) (a : App) (k : nat) (job : Job) :
  jobs a !! k = Some job →
  length (jobs (updateJobStatus i st u a)) = length (jobs a)
  ∧ queueStarts (updateJobStatus i st u a) = queueStarts a
  ∧ (id job ≠ i → jobs (updateJobStatus i st u a) !! k = Some job)
  ∧ (id job = i → jobs (updateJobStatus i st u a) !! k = Some (spread job st u))
  ∧ (i ∉ id <$> jobs a → updateJobStatus i st u a = a).
Proof.
  intros Hk. simpl. split; [by rewrite length_fmap|]. split; [done|].
  split; [|split].
  - intros Hne. by apply updateJob_lookup.
  - intros Heq. rewrite list_lookup_fmap, Hk. simpl.
    unfold updateJob. by rewrite decide_True.
  - intros Hnotin. destruct a as [js qs]. unfold updateJobStatus, setJobs.
    simpl in *. by rewrite updateJob_absent.
Qed.

Lemma updateJobStatus_reaches_only_its_id_witness :
  jobs (app settled) !! 1
  = jobs (updateJobStatus "Z"%string FAILED (failedUpdates "late"%string)
            (app settled)) !! 1
  ∧ updateJobStatus "Z"%string FAILED (failedUpdates "late"%string)
      (app settled) = app settled.
Proof.
  destruct (updateJobStatus_reaches_only_its_id "Z"%string FAILED
              (failedUpdates "late"%string) (app settled) 1 _ eq_refl)
    as (_ & _ & Hother & _ & Habsent).
  split.
  - rewrite Hother; [reflexivity|]. vm_compute. discriminate.
  - apply Habsent. apply (bool_decide_unpack _). vm_compute. exact I.
Defined.

(** ** The store over time *)

Lemma updateJob_kept (i : string) (st : JobStatus) (u : PartialJob)
    (job : Job) :
  plain u → p_createdAt u = None →
  id (updateJob i st u job) = id job
  ∧ config (updateJob i st u job) = config job
  ∧ createdAt (updateJob i st u job) = createdAt job.
Proof.
  intros Hplain Hcreated. rewrite updateJob_id, updateJob_config by done.
  split; [done|]. split; [done|].
  unfold updateJob. case_decide; [|done]. simpl. by rewrite Hcreated.
Qed.

Lemma step_keeps_jobs s s' k job :
  Step s s' → jobs (app s) !! k = Some job →
  ∃ job', jobs (app s') !! k = Some job' ∧ id job' = id job
          ∧ config job' = config job ∧ createdAt job' = createdAt job.
Proof.
  intros Hstep Hk.
  assert (∀ i st u, plain u → p_createdAt u = None →
            ∃ job', (updateJob i st u <$> jobs (app s)) !! k = Some job'
                    ∧ id job' = id job ∧ config job' = config job
                    ∧ createdAt job' = createdAt job) as Hupdate.
  { intros i st u Hplain Hcreated. eexists.
    rewrite list_lookup_fmap, Hk. split; [done|]. by apply updateJob_kept. }
  destruct Hstep as [uuid clk cfg count Hfresh|row target Hrow Hfailed
                    |now t1 t2 a Hnow Hout|now t1 t2 a l Hnow Hout
                    |i now l outcome Hl Hid Hterm]; simpl.
  - exists job. split; [|done]. unfold addJobs.
    destruct (arrayFromLength count); [|done]. simpl.
    by apply lookup_app_l_Some.
  - by apply Hupdate.
  - exists job. split; [|done]. inversion Hout; by subst.
  - inversion Hout; subst. simpl. by apply Hupdate.
  - destruct Hterm; simpl; by apply Hupdate.
Qed.

(** X3.  The store only grows and never reorders: whatever events
    follow, a job keeps its position, its identifier, its configuration
    and its creation time. *)
Theorem jobs_keep_position_and_config (s s' : System) (evs : list Event)
    (k : nat) (job : Job) :
  run evs s = Some s' → jobs (app s) !! k = Some job →
  ∃ job', jobs (app s') !! k = Some job' ∧ id job' = id job
          ∧ config job' = config job ∧ createdAt job' = createdAt job.
Proof.
  revert s job. induction evs as [|ev evs IH]; simpl; intros s job Hrun Hk.
  - simplify_eq. eauto.
  - destruct (dispatch ev s) as [s1|] eqn:Hev; [|done].
    apply dispatch_step in Hev.
    destruct (step_keeps_jobs s s1 k job Hev Hk) as (job1 & Hk1 & Hi & Hc & Ht).
    destruct (IH s1 job1 Hrun Hk1) as (job' & Hk' & Hi' & Hc' & Ht').
    exists job'. split; [done|]. split; [congruence|]. split; congruence.
Qed.

Lemma jobs_keep_position_and_config_witness :
  run laterEvents settled = Some later
  ∧ (status <$> jobs (app settled) !! 0) = Some FAILED
  ∧ (status <$> jobs (app later) !! 0) = Some COMPLETED
  ∧ (config <$> jobs (app later) !! 0) = Some sampleConfig.
Proof.
  split; [reflexivity|]. split; [reflexivity|]. split; [reflexivity|].
  destruct (jobs_keep_position_and_config settled later laterEvents 0 _
              eq_refl eq_refl) as (job' & Hk & _ & Hc & _).
  rewrite Hk. simpl. by rewrite Hc.
Defined.

(** ** Executions in flight *)

Lemma FlightInv_init t0 : FlightInv (init t0).
Proof.
  split; simpl.
  - intros l Hl. by apply elem_of_nil in Hl.
  - intros job Hjob. by apply elem_of_nil in Hjob.
Qed.

(** A job of the updated store that is processing although the update
    sets another status was processing before and was not updated. *)
Lemma updateJob_still_processing (i : string) (st : JobStatus)
    (u : PartialJob) (l : list Job) (job' : Job) :
  plain u → st ≠ PROCESSING →
  job' ∈ updateJob i st u <$> l → status job' = PROCESSING →
  job' ∈ l ∧ id job' ≠ i.
Proof.
  intros Hplain Hst [job [-> Hjob]]%list_elem_of_fmap Hproc.
  rewrite updateJob_status in Hproc by done.
  case_decide as Hid; [done|].
  rewrite updateJob_other by done. done.
Qed.

Lemma FlightInv_step s s' : StoreInv s → Step s s' → FlightInv s → FlightInv s'.
Proof.
  intros [Hids _ _ _ _] Hstep [Hjob Hlaunch].
  destruct Hstep as [uuid clk cfg count Hfresh|row target Hrow Hfailed
                    |now t1 t2 a Hnow Hout|now t1 t2 a l Hnow Hout
                    |i now l outcome Hl Hid Hterm].
  - unfold addJobs. destruct (arrayFromLength count) as [n|]; [|by split].
    split; simpl.
    + intros l Hl. destruct (Hjob l Hl) as (job & Hin & Hrest).
      exists job. split; [|done]. apply elem_of_app. by left.
    + intros job [Hin|Hnew]%elem_of_app Hproc; [by apply Hlaunch|].
      apply list_elem_of_fmap in Hnew as (n' & -> & _). done.
  - assert (target ∈ jobs (app s)) as Htarget
      by (by eapply list_elem_of_lookup_2).
    split; simpl.
    + intros l Hl. destruct (Hjob l Hl) as (job & Hin & Hi & Hc & Hp).
      exists job. split; [|done]. apply updateJob_elem; [done|].
      intros Heq. assert (job = target) by (eapply unique_id; eauto).
      congruence.
    + intros job Hin Hproc.
      apply updateJob_still_processing in Hin as [Hin _];
        [|apply plain_retry|done|done].
      by apply Hlaunch.
  - inversion Hout; subst; by split.
  - inversion Hout as [| |k candidate k' first Hall Hc Hw Hfind Hfirst]; subst.
    apply list_find_Some in Hfind as (Hk & Hpending & _).
    apply list_find_Some in Hfirst as (Hk' & Hsame & _).
    unfold isPending in Hpending.
    assert (candidate ∈ jobs (app s)) as Hcand
      by (by eapply list_elem_of_lookup_2).
    assert (first = candidate) as ->.
    { eapply unique_id; eauto. by eapply list_elem_of_lookup_2. }
    split; simpl.
    + intros l [Hl|Hl%list_elem_of_singleton]%elem_of_app.
      * destruct (Hjob l Hl) as (job & Hin & Hi & Hcfg & Hp).
        exists job. split; [|done]. apply updateJob_elem; [done|].
        intros Heq. assert (job = candidate) by (eapply unique_id; eauto).
        congruence.
      * subst l. simpl.
        exists (updateJob (id candidate) PROCESSING (startedUpdates t1)
                  candidate).
        split; [by apply list_elem_of_fmap_2|].
        rewrite updateJob_id, updateJob_config, updateJob_status
          by apply plain_started.
        by rewrite decide_True.
    + intros job' [job [-> Hin]]%list_elem_of_fmap Hproc.
      rewrite updateJob_id by apply plain_started.
      rewrite updateJob_status in Hproc by apply plain_started.
      case_decide as Hid.
      * eexists. split; [apply elem_of_app; right; by left|]. done.
      * destruct (Hlaunch job Hin Hproc) as (l & Hl & Hlid).
        exists l. split; [|done]. apply elem_of_app. by left.
  - assert (plain (snd outcome) ∧ fst outcome ≠ PROCESSING) as [Hplain Hne]
      by (by destruct Hterm).
    split; simpl.
    + intros l' [Hne' Hl']%list_elem_of_filter.
      destruct (Hjob l' Hl') as (job & Hin & Hi & Hcfg & Hp).
      exists job. split; [|done]. apply updateJob_elem; [done|congruence].
    + intros job' Hin Hproc.
      apply updateJob_still_processing in Hin as [Hin Hother]; [|done..].
      destruct (Hlaunch job' Hin Hproc) as (l' & Hl' & Hlid).
      exists l'. split; [|done]. apply list_elem_of_filter.
      split; [congruence|done].
Qed.

Lemma reachable_FlightInv s : reachable s → FlightInv s.
Proof.
  induction 1 as [t0|s ev s' Hs IH Hev].
  - apply FlightInv_init.
  - eapply FlightInv_step; [by apply reachable_StoreInv|by eapply dispatch_step|done].
Qed.

(** X4.  In every reachable state the executions in flight and the
    processing jobs correspond one to one: there are as many of the one
    as of the other, hence at most 4 remote executions run at a time;
    every execution belongs to a processing job and runs on that job's
    configuration, and every processing job has its execution. *)
Theorem executions_match_processing_jobs (s : System) :
  reachable s →
  length (running s) = processingCount (app s)
  ∧ length (running s) ≤ 4
  ∧ (∀ l, l ∈ running s →
       ∃ job, job ∈ jobs (app s) ∧ id job = l_id l
              ∧ config job = l_config l ∧ status job = PROCESSING)
  ∧ (∀ job, job ∈ jobs (app s) → status job = PROCESSING →
       ∃ l, l ∈ running s ∧ l_id l = id job).
Proof.
  intros Hs.
  pose proof (reachable_StoreInv s Hs) as [Hids Hlaunches _ Hconc _].
  pose proof (reachable_FlightInv s Hs) as [Hjob Hlaunch].
  assert (length (running s) = processingCount (app s)) as Hlen.
  { unfold processingCount.
    rewrite <- (length_fmap l_id (running s)).
    rewrite <- (length_fmap id (filter isProcessing (jobs (app s)))).
    apply Permutation_length, NoDup_Permutation; [done| |].
    - eapply sublist_NoDup; [exact Hids|].
      apply fmap_sublist, sublist_filter.
    - intros i. rewrite !list_elem_of_fmap. split.
      + intros (l & -> & Hl).
        destruct (Hjob l Hl) as (job & Hin & Hi & _ & Hp).
        exists job. split; [done|]. by apply list_elem_of_filter.
      + intros (job & -> & [Hp Hin]%list_elem_of_filter).
        destruct (Hlaunch job Hin Hp) as (l & Hl & Hlid).
        exists l. by split. }
  split; [done|]. split; [|by split].
  rewrite Hlen. exact Hconc.
Qed.

Lemma executions_match_processing_jobs_witness :
  reachable settled
  ∧ length (running settled) = 2
  ∧ length (running settled) = processingCount (app settled).
Proof.
  split; [apply settled_reachable|]. split; [reflexivity|].
  apply (executions_match_processing_jobs settled settled_reachable).
Defined.

(** ** Timestamps and the error text *)

Lemma Forall_updateJob (P : Job → Prop) (i : string) (st : JobStatus)
    (u : PartialJob) (l : list Job) (target : Job) :
  NoDup (id <$> l) → target ∈ l → id target = i →
  P (spread target st u) →
  Forall P l → Forall P (updateJob i st u <$> l).
Proof.
  intros Hnd Hin Hid Hnew Hall. apply Forall_fmap, Forall_forall.
  intros job Hjob. simpl. unfold updateJob. case_decide as Heq.
  - assert (job = target) as -> by (eapply unique_id; eauto; congruence).
    done.
  - eapply Forall_forall in Hall; eauto.
Qed.

Lemma truthy_nonempty m : m ≠ EmptyString → truthy (Some m) = true.
Proof. intros Hm. simpl. by destruct (String.eqb_spec m EmptyString). Qed.

Lemma stamped_step s s' :
  StoreInv s → Step s s' →
  Forall stamped (jobs (app s)) → Forall stamped (jobs (app s')).
Proof.
  intros [Hids _ Hrun _ _] Hstep Hall.
  destruct Hstep as [uuid clk cfg count Hfresh|row target Hrow Hfailed
                    |now t1 t2 a Hnow Hout|now t1 t2 a l Hnow Hout
                    |i now l outcome Hl Hid Hterm]; simpl.
  - unfold addJobs. destruct (arrayFromLength count) as [n|]; [|done].
    simpl. apply Forall_app. split; [done|].
    apply Forall_fmap, Forall_forall. intros k _.
    unfold stamped. simpl. split; [done|]. split; [|done].
    split; [by intros [? ?]|done].
  - assert (target ∈ jobs (app s)) as Hin
      by (by eapply list_elem_of_lookup_2).
    eapply Forall_updateJob; eauto.
    eapply Forall_forall in Hall; [|exact Hin].
    destruct Hall as (_ & Hdone & _). unfold stamped. simpl.
    split; [done|]. split; [|done].
    rewrite Hdone, Hfailed. split; done.
  - inversion Hout; by subst.
  - inversion Hout as [| |k candidate k' first Hall' Hc Hw Hfind Hfirst]; subst.
    simpl. apply list_find_Some in Hfind as (Hk & Hpending & _).
    unfold isPending in Hpending.
    assert (candidate ∈ jobs (app s)) as Hin
      by (by eapply list_elem_of_lookup_2).
    eapply Forall_updateJob; eauto.
    eapply Forall_forall in Hall; [|exact Hin].
    destruct Hall as (_ & Hdone & _). unfold stamped. simpl.
    split; [by eauto|]. split; [|done].
    rewrite Hdone, Hpending. split; done.
  - destruct (Hrun l Hl) as (target & Hin & Htid & Hst).
    eapply Forall_updateJob; eauto; [congruence|].
    eapply Forall_forall in Hall; [|exact Hin].
    destruct Hall as (Hstarted & Hdone & _). unfold stamped.
    destruct Hterm as [m Hm|uri blobUrl]; simpl.
    + split; [intros _; apply Hstarted; congruence|]. split.
      * rewrite Hdone, Hst. split; done.
      * intros _. by destruct (String.eqb_spec m EmptyString).
    + split; [intros _; apply Hstarted; congruence|]. split; [|done].
      split; eauto.
Qed.

Lemma later_reachable : reachable later.
Proof.
  apply (run_reachable laterEvents settled); [|reflexivity].
  apply (run_reachable settledEvents (init 0)); [constructor|reflexivity].
Qed.

(** X5.  In every reachable state a job that is processing, completed or
    failed has its [startedAt], a job has a [completedAt] exactly when
    it is completed, and the error of a failed job is a non-empty
    string. *)
Theorem timestamps_follow_lifecycle (s : System) :
  reachable s →
  ∀ job, job ∈ jobs (app s) →
    (status job ≠ PENDING → is_Some (startedAt job))
    ∧ (is_Some (completedAt job) ↔ status job = COMPLETED)
    ∧ (status job = FAILED → ∃ m, error job = Some m ∧ m ≠ EmptyString).
Proof.
  intros Hs. assert (Forall stamped (jobs (app s))) as Hall.
  { induction Hs as [t0|s ev s' Hs IH Hev]; [constructor|].
    eapply stamped_step; [by apply reachable_StoreInv| |done].
    by eapply dispatch_step. }
  intros job Hjob. eapply Forall_forall in Hall; [|exact Hjob].
  destruct Hall as (Hstarted & Hdone & Herr).
  split; [done|]. split; [done|]. intros Hfailed.
  specialize (Herr Hfailed). unfold truthy in Herr.
  destruct (error job) as [m|]; [|done]. exists m. split; [done|].
  intros ->. done.
Qed.

Lemma timestamps_follow_lifecycle_witness :
  reachable later
  ∧ (startedAt <$> jobs (app later))
    = [Some 62005; Some 1010; Some 2010; Some 3010; None; None; None]%Z
  ∧ Forall (λ job, is_Some (completedAt job) ↔ status job = COMPLETED)
      (jobs (app later)).
Proof.
  split; [apply later_reachable|]. split; [reflexivity|].
  apply Forall_forall. intros job Hjob.
  apply (timestamps_follow_lifecycle later later_reachable job Hjob).
Defined.

(** ** When a tick admits *)

Lemma processQueue_launch_iff now t1 t2 a :
  is_Some (snd (processQueue now t1 t2 a))
  ↔ filter (validStart now) (queueStarts a) = queueStarts a
    ∧ processingCount a < MAX_CONCURRENT_JOBS
    ∧ length (queueStarts a) < MAX_STARTS_PER_WINDOW
    ∧ ∃ job, job ∈ jobs a ∧ status job = PENDING.
Proof.
  destruct (processQueue_outcome now t1 t2 a)
    as [Hlen|Hall Hwhy|k candidate k' job Hall Hc Hw Hfind Hjob]; simpl.
  - split; [by intros [? ?]|]. intros (Hall & _). rewrite Hall in Hlen. lia.
  - split; [by intros [? ?]|]. intros (_ & Hc & Hw & job & Hin & Hp).
    destruct Hwhy as [?|[?|Hnone]]; [lia..|].
    eapply list_find_None, Forall_forall in Hnone; [|exact Hin]. done.
  - split; [|by eauto]. intros _.
    apply list_find_Some in Hfind as (Hk & Hp & _).
    split; [done|]. split; [done|]. split; [done|].
    exists candidate. split; [by eapply list_elem_of_lookup_2|done].
Qed.

(** X6.  A tick launches an execution exactly when no timestamp of the
    rate window has expired, fewer than 4 jobs are processing, fewer
    than 4 timestamps are in the window and some job is pending. *)
Theorem tick_launches_exactly_when_gates_open (a : App) (now t1 t2 : Z) :
  is_Some (snd (processQueue now t1 t2 a))
  ↔ filter (λ t, now - t < 60000)%Z (queueStarts a) = queueStarts a
    ∧ processingCount a < 4
    ∧ length (queueStarts a) < 4
    ∧ ∃ job, job ∈ jobs a ∧ status job = PENDING.
Proof. apply processQueue_launch_iff. Qed.

Lemma tick_launches_exactly_when_gates_open_witness :
  snd (processQueue 70010 70010 70011 drained)
  = Some {| l_id := "A"%string; l_config := sampleConfig |}
  ∧ ∃ job, job ∈ jobs drained ∧ status job = PENDING.
Proof.
  split; [reflexivity|].
  apply (tick_launches_exactly_when_gates_open drained 70010 70010 70011).
  vm_compute. eauto.
Defined.




(** X8.  A retried job keeps its turn: when no job before it is pending,
    the next execution that a tick launches after [handleRetry] is the
    one of the retried job, on its unchanged configuration, whatever
    jobs were created after it. *)
Theorem retried_job_keeps_its_turn (a : App) (k : nat) (job : Job)
    (now t1 t2 : Z) (l : Launch) :
  NoDup (id <$> jobs a) →
  jobs a !! k = Some job →
  (∀ k' earlier,
     k' < k → jobs a !! k' = Some earlier → status earlier ≠ PENDING) →
  snd (processQueue now t1 t2 (handleRetry (id job) a)) = Some l →
  l = {| l_id := id job; l_config := config job |}.
Proof.
  intros Hids Hk Hnone.
  assert (jobs (handleRetry (id job) a)
          = <[k := spread job PENDING retryUpdates]> (jobs a)) as Hjobs
    by (by apply updateJob_insert).
  assert (NoDup (id <$> jobs (handleRetry (id job) a))) as Hids'.
  { simpl. by rewrite updateJob_ids by apply plain_retry. }
  assert (k < length (jobs a)) as Hlt by (by eapply lookup_lt_Some).
  destruct (processQueue_outcome now t1 t2 (handleRetry (id job) a))
    as [Hlen|Hall Hwhy|k0 candidate k' first Hall Hc Hw Hfind Hfirst];
    [done..|].
  intros [= <-].
  apply list_find_Some in Hfind as (Hk0 & Hp & Hmin).
  apply list_find_Some in Hfirst as (Hk' & Hsame & _).
  assert (first = candidate) as ->.
  { eapply unique_id; eauto; by eapply list_elem_of_lookup_2. }
  assert (k0 = k) as ->.
  { destruct (Nat.lt_trichotomy k0 k) as [Hless|[Heq|Hmore]]; [|done|].
    - rewrite Hjobs, list_lookup_insert_ne in Hk0 by lia.
      exfalso. by eapply (Hnone k0 candidate).
    - exfalso. eapply (Hmin k); [|done|].
      + rewrite Hjobs. by apply list_lookup_insert_eq.
      + done. }
  rewrite Hjobs, list_lookup_insert_eq in Hk0 by done.
  by simplify_eq.
Qed.

Lemma retried_job_keeps_its_turn_witness :
  (status <$> jobs (app settled) !! 0) = Some FAILED
  ∧ snd (processQueue 70010 70010 70011
           (handleRetry "A"%string
              (fst (processQueue 70000 70000 70001 (app settled)))))
    = Some {| l_id := "A"%string; l_config := sampleConfig |}.
Proof.
  split; [reflexivity|].
  assert (NoDup (id <$> jobs (fst (processQueue 70000 70000 70001
                                     (app settled))))) as Hids.
  { apply (bool_decide_unpack _). vm_compute. exact I. }
  destruct (snd (processQueue 70010 70010 70011
                   (handleRetry "A"%string
                      (fst (processQueue 70000 70000 70001 (app settled))))))
    as [l|] eqn:Hl; [|vm_compute in Hl; discriminate].
  f_equal.
  apply (retried_job_keeps_its_turn
           (fst (processQueue 70000 70000 70001 (app settled))) 0
           {| id := "A"%string; config := sampleConfig; status := FAILED;
              videoUri := None; downloadUrl := None;
              error := Some "quota exceeded"%string;
              createdAt := 5; startedAt := Some 10%Z; completedAt := None |}
           70010 70010 70011 l Hids eq_refl).
  - intros k' earlier Hk'. lia.
  - exact Hl.
Defined.

(** ** The remote adapter, case by case *)

(** X9.  The request copies model, prompt, resolution and aspect ratio
    from the configuration and asks for one video.  It carries an image
    exactly when the input type is the image type and the configuration
    holds a non-empty image; the image then travels with the media type
    of the configuration, or with image/png when that is missing or
    empty. *)
Theorem request_follows_config (cfg : JobConfig) :
  rq_model (buildRequest cfg) = model cfg
  ∧ rq_prompt (buildRequest cfg) = prompt cfg
  ∧ rq_resolution (buildRequest cfg) = resolution cfg
  ∧ rq_aspectRatio (buildRequest cfg) = aspectRatio cfg
  ∧ rq_numberOfVideos (buildRequest cfg) = 1
  ∧ (rq_image (buildRequest cfg) = None
     ↔ inputType cfg = TEXT ∨ truthy (imageBase64 cfg) = false)
  ∧ (∀ bytes mime,
       rq_image (buildRequest cfg) = Some (bytes, mime) →
       inputType cfg = IMAGE ∧ imageBase64 cfg = Some bytes
       ∧ bytes ≠ EmptyString
       ∧ mime = orElse (imageMimeType cfg) "image/png"%string
       ∧ mime ≠ EmptyString).
Proof.
  assert (rq_image (buildRequest cfg)
          = if bool_decide (inputType cfg = IMAGE) && truthy (imageBase64 cfg)
            then Some (default EmptyString (imageBase64 cfg),
                       orElse (imageMimeType cfg) "image/png"%string)
            else None) as Himage.
  { unfold buildRequest. by destruct (_ && _). }
  repeat (split; [unfold buildRequest; by destruct (_ && _)|]).
  rewrite Himage. clear Himage. split.
  - destruct (inputType cfg); simpl; [by split; [left|]|].
    destruct (truthy (imageBase64 cfg)); simpl.
    + split; [done|]. by intros [?|?].
    + split; [by right|done].
  - intros bytes mime.
    destruct (inputType cfg); simpl; [done|].
    unfold truthy. destruct (imageBase64 cfg) as [b|]; [|done].
    destruct (String.eqb_spec b EmptyString) as [->|Hb]; simpl; [done|].
    intros [= <- <-]. repeat split; try done. by apply orElse_nonempty.
Qed.

Lemma request_follows_config_witness :
  rq_image (buildRequest sampleConfig) = None.
Proof.
  apply (request_follows_config sampleConfig). by left.
Defined.

(** X10.  The polling loop returns the first operation that is done and
    ignores every later answer: the submitted operation itself when it
    is done already, without any poll; otherwise the first done answer
    after answers that are still running; a poll that fails in between
    ends the loop with its error; and while every answer is still
    running the loop does not end. *)
Theorem polling_stops_at_first_done (operation : Operation)
    (before after : list (Settled Operation)) :
  Forall (λ answer, ∃ o, answer = Resolved o ∧ done o = false) before →
  (done operation = true →
     polling (before ++ after) operation = Some (Resolved operation))
  ∧ (done operation = false →
       (∀ result, done result = true →
          polling (before ++ Resolved result :: after) operation
          = Some (Resolved result))
       ∧ (∀ e, polling (before ++ Rejected e :: after) operation
               = Some (Rejected e))
       ∧ polling before operation = None).
Proof.
  intros Hbefore. split.
  - intros Hdone. destruct (before ++ after); simpl; by rewrite Hdone.
  - revert operation.
    induction Hbefore as [|answer before (o & -> & Ho) _ IH];
      intros operation Hrunning.
    + simpl. rewrite Hrunning. split; [|done].
      intros result Hdone. destruct after; simpl; by rewrite Hdone.
    + simpl. rewrite Hrunning. by apply IH.
Qed.

Lemma polling_stops_at_first_done_witness :
  polling ([Resolved sampleStep; Resolved sampleStep]
           ++ Resolved {| done := true; op_error := None;
                          op_uri := Some "u"%string |}
              :: [Rejected (Error "late"%string)]) sampleStep
  = Some (Resolved {| done := true; op_error := None;
                      op_uri := Some "u"%string |}).
Proof.
  apply (polling_stops_at_first_done sampleStep
           [Resolved sampleStep; Resolved sampleStep]
           [Rejected (Error "late"%string)]).
  - repeat constructor; by exists sampleStep.
  - reflexivity.
  - reflexivity.
Defined.

(** X11.  [generateVideoJob] resolves to a locator exactly when the key
    is set, the submission is accepted, the polling ends with an
    operation that reports no error, and that operation holds the
    locator; the locator is then never empty. *)
Theorem generation_resolves_exactly_on_clean_result (env : Remote)
    (cfg : JobConfig) (uri : string) :
  generateVideoJob env cfg = Some (Resolved uri)
  ↔ truthy (API_KEY env) = true
    ∧ uri ≠ EmptyString
    ∧ ∃ submitted operation,
        generateVideos env (buildRequest cfg) = Resolved submitted
        ∧ polling (getVideosOperation env) submitted
          = Some (Resolved operation)
        ∧ op_error operation = None
        ∧ op_uri operation = Some uri.
Proof.
  unfold generateVideoJob, extractResult. split.
  - destruct (truthy (API_KEY env)); cbn [negb]; [|done].
    destruct (generateVideos env (buildRequest cfg)) as [submitted|e];
      [|done].
    destruct (polling (getVideosOperation env) submitted)
      as [[operation|e]|] eqn:Hpoll; [|done..].
    destruct (op_error operation) eqn:Herr; [done|].
    destruct (op_uri operation) as [u|] eqn:Huri; simpl; [|done].
    destruct (String.eqb_spec u EmptyString) as [->|Hu]; simpl; [done|].
    intros [= <-]. split; [done|]. split; [done|].
    exists submitted, operation. by rewrite Huri.
  - intros (Hkey & Huri & submitted & operation & Hsub & Hpoll & Herr & Hop).
    rewrite Hkey, Hsub, Hpoll, Herr, Hop. simpl.
    by destruct (String.eqb_spec uri EmptyString).
Qed.

Lemma generation_resolves_exactly_on_clean_result_witness :
  generateVideoJob succeeding sampleConfig
  = Some (Resolved "https://v/1?alt=media"%string)
  ∧ truthy (API_KEY succeeding) = true.
Proof.
  split; [reflexivity|].
  apply (generation_resolves_exactly_on_clean_result succeeding sampleConfig
           "https://v/1?alt=media"%string).
  reflexivity.
Defined.

(** X12.  Without a key nothing is asked of the remote service: whatever
    it would answer, the execution fails with the message about the
    missing key, and the job becomes failed with that message. *)
Theorem missing_key_fails_the_job (env : Remote) (cfg : JobConfig) (now : Z)
    (a : App) (k : nat) (job : Job) :
  truthy (API_KEY env) = false →
  jobs a !! k = Some job →
  generateVideoJob env cfg
  = Some (Rejected (Error "API Key not found. Please select a project."%string))
  ∧ execution env cfg now
    = Some (FAILED,
            failedUpdates "API Key not found. Please select a project."%string)
  ∧ (status <$> jobs (finishJob (id job)
                        (FAILED, failedUpdates
                           "API Key not found. Please select a project."%string)
                        a) !! k) = Some FAILED
  ∧ (error <$> jobs (finishJob (id job)
                       (FAILED, failedUpdates
                          "API Key not found. Please select a project."%string)
                       a) !! k)
    = Some (Some "API Key not found. Please select a project."%string).
Proof.
  intros Hkey Hk. unfold execution, generateVideoJob. rewrite Hkey.
  split; [done|]. split; [done|]. simpl.
  rewrite list_lookup_fmap, Hk. simpl.
  unfold updateJob. by rewrite decide_True.
Qed.

Lemma missing_key_fails_the_job_witness :
  truthy (API_KEY {| API_KEY := None;
                     generateVideos := generateVideos succeeding;
                     getVideosOperation := [];
                     fetch := fetch succeeding |}) = false
  ∧ execution {| API_KEY := None;
                 generateVideos := generateVideos succeeding;
                 getVideosOperation := []; fetch := fetch succeeding |}
      sampleConfig 9
    = Some (FAILED,
            failedUpdates "API Key not found. Please select a project."%string).
Proof.
  split; [reflexivity|].
  apply (missing_key_fails_the_job
           {| API_KEY := None; generateVideos := generateVideos succeeding;
              getVideosOperation := []; fetch := fetch succeeding |}
           sampleConfig 9 (app busy) 0 _ eq_refl eq_refl).
Defined.

Lemma truthy_Some s : truthy s = true → ∃ m, s = Some m ∧ m ≠ EmptyString.
Proof.
  unfold truthy. destruct s as [m|]; [|done].
  destruct (String.eqb_spec m EmptyString); [done|]. eauto.
Qed.

(** X13.  An execution ends as completed exactly when the generation
    resolves to a locator and the download of that locator, with the
    key appended as a query parameter, answers with an ok response whose
    body can be read; the job then receives that locator and the local
    handle of the body. *)
Theorem execution_completes_exactly_on_download (env : Remote)
    (cfg : JobConfig) (now : Z) (u : PartialJob) :
  execution env cfg now = Some (COMPLETED, u)
  ↔ ∃ uri key response blobUrl,
      generateVideoJob env cfg = Some (Resolved uri)
      ∧ API_KEY env = Some key
      ∧ fetch env (String.append uri (String.append "&key=" key))
        = Resolved response
      ∧ ok response = true
      ∧ blob response = Resolved blobUrl
      ∧ u = completedUpdates now uri blobUrl.
Proof.
  unfold execution. split.
  - destruct (generateVideoJob env cfg) as [[uri|e]|] eqn:Hgen; [|done..].
    assert (truthy (API_KEY env) = true) as Hkey.
    { unfold generateVideoJob in Hgen.
      by destruct (truthy (API_KEY env)). }
    apply truthy_Some in Hkey as (key & Hkey & _).
    unfold fetchVideoBlob. rewrite Hkey. simpl.
    destruct (fetch env _) as [response|e] eqn:Hfetch; [|done].
    destruct (ok response) eqn:Hok; simpl; [|done].
    destruct (blob response) as [blobUrl|e] eqn:Hblob; [|done].
    intros [= <-]. exists uri, key, response, blobUrl. done.
  - intros (uri & key & response & blobUrl & Hgen & Hkey & Hfetch & Hok
            & Hblob & ->).
    rewrite Hgen. unfold fetchVideoBlob. rewrite Hkey. simpl.
    by rewrite Hfetch, Hok, Hblob.
Qed.

Lemma execution_completes_exactly_on_download_witness :
  execution succeeding sampleConfig 6000
  = Some (COMPLETED,
          completedUpdates 6000 "https://v/1?alt=media"%string
            "blob:1"%string).
Proof.
  apply (execution_completes_exactly_on_download succeeding sampleConfig 6000).
  exists "https://v/1?alt=media"%string, "key"%string,
    {| ok := true; blob := Resolved "blob:1"%string |}, "blob:1"%string.
  repeat split; reflexivity.
Defined.

(** X14.  When the generation has resolved but the download answers with
    a response that is not ok, the job fails with the message "Failed to
    download video file" and the locator is not recorded on it. *)
Theorem refused_download_fails_the_job (env : Remote) (cfg : JobConfig)
    (now : Z) (uri : string) (response : FetchResponse)
    (a : App) (k : nat) (job : Job) :
  generateVideoJob env cfg = Some (Resolved uri) →
  fetch env (String.append uri
               (String.append "&key=" (default "undefined"%string (API_KEY env))))
  = Resolved response →
  ok response = false →
  jobs a !! k = Some job →
  execution env cfg now
  = Some (FAILED, failedUpdates "Failed to download video file"%string)
  ∧ jobs (finishJob (id job)
            (FAILED, failedUpdates "Failed to download video file"%string) a)
      !! k
    = Some {| id := id job; config := config job; status := FAILED;
              videoUri := videoUri job; downloadUrl := downloadUrl job;
              error := Some "Failed to download video file"%string;
              createdAt := createdAt job; startedAt := startedAt job;
              completedAt := completedAt job |}.
Proof.
  intros Hgen Hfetch Hok Hk. unfold execution, fetchVideoBlob.
  rewrite Hgen, Hfetch, Hok. split; [done|]. simpl.
  rewrite list_lookup_fmap, Hk. simpl.
  unfold updateJob. by rewrite decide_True.
Qed.

Lemma refused_download_fails_the_job_witness :
  execution {| API_KEY := API_KEY succeeding;
               generateVideos := generateVideos succeeding;
               getVideosOperation := [];
               fetch := λ _, Resolved {| ok := false;
                                         blob := Resolved "blob:1"%string |} |}
    sampleConfig 6000
  = Some (FAILED, failedUpdates "Failed to download video file"%string).
Proof.
  apply (refused_download_fails_the_job
           {| API_KEY := API_KEY succeeding;
              generateVideos := generateVideos succeeding;
              getVideosOperation := [];
              fetch := λ _, Resolved {| ok := false;
                                        blob := Resolved "blob:1"%string |} |}
           sampleConfig 6000 "https://v/1?alt=media"%string
           {| ok := false; blob := Resolved "blob:1"%string |}
           (app busy) 0 _ eq_refl eq_refl eq_refl eq_refl).
Defined.

(** ** Executions that do not settle *)

Lemma running_kept ev s s' l :
  dispatch ev s = Some s' → l ∈ running s →
  (∀ env now, ev ≠ Settle (l_id l) env now) →
  l ∈ running s'.
Proof.
  destruct ev as [uuid clk cfg count|row|now t1 t2|i env now]; simpl.
  - case_bool_decide; [|done]. by intros [= <-].
  - destruct (jobs (app s) !! row) as [job|]; [|done].
    destruct (retryOffered job); [|done]. by intros [= <-].
  - case_bool_decide; [|done].
    destruct (processQueue now t1 t2 (app s)) as [a [l'|]];
      intros [= <-] Hl _; simpl; [|done].
    apply elem_of_app. by left.
  - destruct (list_find _ (running s)) as [[? l']|]; [|done].
    destruct (execution env (l_config l') now); [|done].
    intros [= <-] Hl Hother. simpl. apply list_elem_of_filter.
    split; [|done]. intros Heq. by apply (Hother env now); rewrite Heq.
Qed.

(** X15.  There is no timeout: as long as its own settlement does not
    occur, an execution stays in flight and its job stays processing,
    with the configuration the execution runs on, whatever creations,
    retries, ticks and settlements of other jobs happen. *)
Theorem unsettled_execution_keeps_its_slot (s s' : System)
    (evs : list Event) (l : Launch) :
  reachable s → l ∈ running s →
  Forall (λ ev, ∀ env now, ev ≠ Settle (l_id l) env now) evs →
  run evs s = Some s' →
  l ∈ running s'
  ∧ ∃ job, job ∈ jobs (app s') ∧ id job = l_id l
           ∧ config job = l_config l ∧ status job = PROCESSING.
Proof.
  intros Hs Hl Hevs Hrun.
  assert (reachable s' ∧ l ∈ running s') as [Hs' Hl'].
  { revert s Hs Hl Hrun.
    induction Hevs as [|ev evs Hev _ IH]; simpl; intros s Hs Hl Hrun.
    - by simplify_eq.
    - destruct (dispatch ev s) as [s1|] eqn:Hdisp; [|done].
      apply (IH s1); [by eapply reachable_step| |done].
      by eapply running_kept. }
  split; [done|]. by apply (flight_job s' (reachable_FlightInv s' Hs')).
Qed.

Lemma unsettled_execution_keeps_its_slot_witness :
  reachable settled
  ∧ {| l_id := "D"%string; l_config := sampleConfig |} ∈ running settled
  ∧ run laterEvents settled = Some later
  ∧ {| l_id := "D"%string; l_config := sampleConfig |} ∈ running later.
Proof.
  assert ({| l_id := "D"%string; l_config := sampleConfig |}
          ∈ running settled) as Hl.
  { apply (list_elem_of_lookup_2 _ 1). reflexivity. }
  split; [apply settled_reachable|]. split; [exact Hl|].
  split; [reflexivity|].
  apply (unsettled_execution_keeps_its_slot settled later laterEvents
           {| l_id := "D"%string; l_config := sampleConfig |}
           settled_reachable Hl); [|reflexivity].
  repeat constructor; intros env now; discriminate.
Defined.

(** ** Rows, downloads and statistics *)

(** X16.  On every job of a reachable state the row agrees with the
    status: the Retry button, and the error line with the error of the
    job, appear exactly on a failed job; the spinner appears exactly on
    a processing job; the video player appears only on a completed job,
    next to the Download button and with the handle that the download
    uses; Retry and Download never appear together. *)
Theorem row_agrees_with_status (s : System) (job : Job) :
  reachable s → job ∈ jobs (app s) →
  (retryOffered job = true ↔ status job = FAILED)
  ∧ (is_Some (errorLine job) ↔ status job = FAILED)
  ∧ errorLine job = error job
  ∧ (resultCell job = Spinner ↔ status job = PROCESSING)
  ∧ (∀ src, resultCell job = Player src →
       status job = COMPLETED ∧ downloadOffered job = true
       ∧ src ≠ EmptyString ∧ href <$> handleDownload job = Some src)
  ∧ retryOffered job && downloadOffered job = false.
Proof.
  intros Hs Hjob.
  pose proof (reachable_StoreInv s Hs) as [_ _ _ _ Hcons].
  eapply Forall_forall in Hcons; [|exact Hjob].
  assert (Forall stamped (jobs (app s))) as Hstamped.
  { clear Hjob Hcons. induction Hs as [t0|s ev s' Hs IH Hev]; [constructor|].
    eapply stamped_step; [by apply reachable_StoreInv| |done].
    by eapply dispatch_step. }
  eapply Forall_forall in Hstamped; [|exact Hjob].
  destruct Hstamped as (_ & _ & Htext).
  clear Hjob Hs.
  unfold retryOffered, downloadOffered, errorLine, resultCell, handleDownload,
    consistent in *.
  destruct job as [i cfg st uri url err created started completed].
  simpl in *. destruct st; simpl in *.
  - destruct Hcons as (-> & _ & ->). simpl.
    repeat split; try done; by intros [? ?].
  - destruct Hcons as (-> & _ & ->). simpl.
    repeat split; try done; by intros [? ?].
  - destruct Hcons as (-> & _ & Hurl). simpl.
    split; [done|]. split; [split; [by intros [? ?]|done]|].
    split; [done|]. split; [destruct (truthy url); done|].
    split; [|done]. intros src.
    destruct (truthy url) eqn:Htruthy; [|done].
    intros [= <-]. apply truthy_Some in Htruthy as (u & -> & Hne). done.
  - destruct Hcons as (_ & _ & ->).
    destruct (truthy_Some err (Htext eq_refl)) as (m & -> & Hm).
    rewrite (truthy_nonempty m Hm). simpl.
    repeat split; try done; eauto.
Qed.

Lemma row_agrees_with_status_witness :
  reachable settled
  ∧ Forall (λ job, is_Some (errorLine job) ↔ status job = FAILED)
      (jobs (app settled))
  ∧ (errorLine <$> jobs (app settled))
    = [Some "quota exceeded"%string; None; None; None; None].
Proof.
  split; [apply settled_reachable|]. split; [|reflexivity].
  apply Forall_forall. intros job Hjob.
  apply (row_agrees_with_status settled job settled_reachable Hjob).
Defined.

(** X17.  [handleDownloadAll] sets one timer for every completed job
    with a non-empty handle and for no other job, in store order; the
    timer of the [k]-th such job fires after [500 * k] milliseconds, and
    when it fires [handleDownload] clicks a link to the handle of that
    job under the file name veo-gen-<id>.mp4. *)
Theorem download_all_staggers_completed_jobs (a : App) (k : nat)
    (delay : Z) (job : Job) :
  handleDownloadAll a !! k = Some (delay, job) →
  delay = (500 * Z.of_nat k)%Z
  ∧ filter downloadable (jobs a) !! k = Some job
  ∧ length (handleDownloadAll a) = length (filter downloadable (jobs a))
  ∧ job ∈ jobs a
  ∧ status job = COMPLETED
  ∧ ∃ url, url ≠ EmptyString ∧ downloadUrl job = Some url
           ∧ handleDownload job
             = Some {| href := url;
                       download := String.append "veo-gen-"
                                     (String.append (id job) ".mp4") |}.
Proof.
  unfold handleDownloadAll. rewrite list_lookup_imap, length_imap.
  destruct (filter downloadable (jobs a) !! k) as [job'|] eqn:Hk; [|done].
  simpl. intros [= <- <-]. split; [lia|]. split; [done|]. split; [done|].
  apply list_elem_of_lookup_2, list_elem_of_filter in Hk
    as [[Hdone Hurl] Hin].
  split; [done|]. split; [done|].
  unfold handleDownload. rewrite Hurl.
  apply truthy_Some in Hurl as (url & -> & Hne). eauto.
Qed.

Lemma download_all_staggers_completed_jobs_witness :
  (fst <$> handleDownloadAll (app later)) = [0; 500; 1000]%Z
  ∧ (id ∘ snd <$> handleDownloadAll (app later))
    = ["A"; "B"; "C"]%string
  ∧ ∃ job, handleDownloadAll (app later) !! 2 = Some (1000%Z, job)
           ∧ status job = COMPLETED.
Proof.
  split; [reflexivity|]. split; [reflexivity|].
  destruct (handleDownloadAll (app later) !! 2) as [[delay job]|] eqn:Hk;
    [|vm_compute in Hk; discriminate].
  destruct (download_all_staggers_completed_jobs (app later) 2 delay job Hk)
    as (-> & _ & _ & _ & Hdone & _).
  exists job. split; [reflexivity|exact Hdone].
Defined.

(** X18.  In a reachable state [handleDownload] acts on completed jobs
    only: on a pending, processing or failed job it clicks nothing. *)
Theorem download_needs_completed_job (s : System) (job : Job) :
  reachable s → job ∈ jobs (app s) →
  status job ≠ COMPLETED → handleDownload job = None.
Proof.
  intros Hs Hjob Hst.
  pose proof (reachable_StoreInv s Hs) as [_ _ _ _ Hcons].
  eapply Forall_forall in Hcons; [|exact Hjob].
  unfold handleDownload, consistent in *.
  destruct (status job); [| |done|]; destruct Hcons as (_ & _ & ->); done.
Qed.

Lemma download_needs_completed_job_witness :
  reachable settled
  ∧ (handleDownload <$> jobs (app settled))
    = [None;
       Some {| href := "blob:1"%string; download := "veo-gen-B.mp4"%string |};
       None; None; None]
  ∧ Forall (λ job, status job ≠ COMPLETED → handleDownload job = None)
      (jobs (app settled)).
Proof.
  split; [apply settled_reachable|]. split; [reflexivity|].
  apply Forall_forall. intros job Hjob.
  apply (download_needs_completed_job settled job settled_reachable Hjob).
Defined.

(** X19.  The counters of the statistics bar count disjoint jobs: the
    pending, the processing and the completed jobs together with the
    failed ones are all the jobs, so the three counters never add up to
    more than the total. *)
Theorem counters_partition_the_jobs (a : App) :
  pendingCount a + processingCount a + completedCount a
  + length (filter (λ job, status job = FAILED) (jobs a))
  = length (jobs a)
  ∧ pendingCount a + processingCount a + completedCount a ≤ length (jobs a).
Proof.
  assert (pendingCount a + processingCount a + completedCount a
          + length (filter (λ job, status job = FAILED) (jobs a))
          = length (jobs a)) as Hsum; [|split; [done|lia]].
  unfold pendingCount, processingCount, completedCount.
  induction (jobs a) as [|job l IH]; [done|].
  rewrite !filter_cons. unfold isPending, isProcessing, isCompleted in *.
  repeat case_decide; simpl; try lia; try congruence.
  destruct (status job); done.
Qed.

(** ** The form *)

Lemma split_without_separator sep s :
  occurs sep s = false → split sep s = [s].
Proof.
  induction s as [|c s IH]; [done|]. simpl.
  destruct (Ascii.eqb c sep); [done|]. simpl. intros Hs. by rewrite IH.
Qed.

Lemma split_at_first_separator sep before after :
  occurs sep before = false →
  split sep (String.append before (String sep after))
  = before :: split sep after.
Proof.
  induction before as [|c before IH]; simpl.
  - intros _. by rewrite Ascii.eqb_refl.
  - destruct (Ascii.eqb c sep); [done|]. simpl. intros Hs. by rewrite IH.
Qed.

(** X20.  Choosing a file whose data URL is a prefix, a comma and a
    payload, none of the two holding a comma, stores the payload as the
    image and the name of the file, and leaves the rest of the form as
    it is; a result without any comma leaves the image undefined; and
    without a file the form does not change. *)
Theorem file_choice_keeps_the_payload (f : FormState)
    (name before payload : string) :
  occurs comma before = false → occurs comma payload = false →
  handleFileChange
    (Some (name, String.append before (String comma payload))) f
  = {| f_prompt := f_prompt f; f_inputType := f_inputType f;
       f_model := f_model f; f_aspectRatio := f_aspectRatio f;
       f_resolution := f_resolution f; f_count := f_count f;
       f_imageBase64 := Some payload; f_imageName := name |}
  ∧ f_imageBase64 (handleFileChange (Some (name, before)) f) = None
  ∧ handleFileChange None f = f.
Proof.
  intros Hbefore Hpayload. unfold handleFileChange, base64Data.
  rewrite split_at_first_separator, !split_without_separator by done.
  done.
Qed.

Lemma file_choice_keeps_the_payload_witness :
  f_imageBase64 imageForm = Some "QUJD"%string
  ∧ f_imageName imageForm = "kite.jpg"%string.
Proof.
  pose proof (file_choice_keeps_the_payload
                {| f_prompt := "a red kite"%string; f_inputType := IMAGE;
                   f_model := VEO_HQ; f_aspectRatio := RATIO_9_16;
                   f_resolution := RES_1080P; f_count := 3;
                   f_imageBase64 := None; f_imageName := EmptyString |}
                "kite.jpg"%string "data:image/jpeg;base64"%string
                "QUJD"%string eq_refl eq_refl) as (Hfile & _).
  change (handleFileChange _ _) with imageForm in Hfile.
  rewrite Hfile. done.
Defined.

Lemma addJobs_new_job uuid clk cfg count a k :
  (0 < count ≤ 4294967295)%Z → k < Z.to_nat count →
  jobs (addJobs uuid clk cfg count a) !! (length (jobs a) + k)
  = Some (newJob (uuid k) cfg (clk k)).
Proof.
  intros [Hpos Hmax] Hk. unfold addJobs, arrayFromLength.
  destruct (Z.leb_spec count 0) as [|_]; [lia|].
  destruct (Z.leb_spec count 4294967295) as [_|]; [|lia].
  simpl. rewrite lookup_app_r by lia.
  replace (length (jobs a) + k - length (jobs a)) with k by lia.
  by rewrite list_lookup_fmap, lookup_seq_lt.
Qed.

(** X21.  A submission with a blank prompt creates nothing.  Otherwise
    it creates the jobs that [addJobs] makes of the form: each is
    pending and carries the prompt as typed, and the request that the
    adapter builds for it holds an image, of type image/png, exactly
    when the image type is chosen and a non-empty image was read; a
    form of the text type sends no image even when one was read. *)
Theorem submission_follows_form (trim : string → string)
    (uuid : nat → string) (clk : nat → Z) (f : FormState) (a : App) :
  (trim (f_prompt f) = EmptyString → submit trim uuid clk f a = a)
  ∧ (trim (f_prompt f) ≠ EmptyString →
     (0 < f_count f ≤ 4294967295)%Z →
     ∀ k, k < Z.to_nat (f_count f) →
       ∃ job,
         jobs (submit trim uuid clk f a) !! (length (jobs a) + k) = Some job
         ∧ id job = uuid k
         ∧ status job = PENDING
         ∧ prompt (config job) = f_prompt f
         ∧ rq_image (buildRequest (config job))
           = if bool_decide (f_inputType f = IMAGE)
                && truthy (f_imageBase64 f)
             then Some (default EmptyString (f_imageBase64 f),
                        "image/png"%string)
             else None).
Proof.
  unfold submit, handleSubmit. split.
  - intros ->. done.
  - intros Hprompt Hcount k Hk. simpl.
    destruct (String.eqb_spec (trim (f_prompt f)) EmptyString); [done|].
    simpl. eexists. split; [by apply addJobs_new_job|].
    simpl. split; [done|]. split; [done|]. split; [done|].
    unfold buildRequest. simpl. by destruct (_ && _).
Qed.

Lemma submission_follows_form_witness :
  length (jobs (submit (λ p, p) sampleUuid (λ _, 5%Z) imageForm
                  {| jobs := []; queueStarts := [] |})) = 3
  ∧ ∃ job,
      jobs (submit (λ p, p) sampleUuid (λ _, 5%Z) imageForm
              {| jobs := []; queueStarts := [] |}) !! 2 = Some job
      ∧ rq_image (buildRequest (config job))
        = Some ("QUJD"%string, "image/png"%string).
Proof.
  split; [reflexivity|].
  destruct (submission_follows_form (λ p, p) sampleUuid (λ _, 5%Z) imageForm
              {| jobs := []; queueStarts := [] |}) as (_ & Hsubmit).
  destruct (Hsubmit ltac:(done) ltac:(simpl; lia) 2 ltac:(simpl; lia))
    as (job & Hjob & _ & _ & _ & Himage).
  exists job. split; [exact Hjob|exact Himage].
Defined.
